(** * python_game.py: the grid game's simulation core

    A shallow embedding of [src/python_game.py]: the entity classes, the
    [World] container with its spatial queries, the two enemy behaviours and
    one iteration of the [main] loop, followed by the properties of the
    turn algorithm.

    Conventions of the embedding.
    - Python integers are [Z]; [%] with a positive divisor is [Z.modulo].
    - Objects are shared by reference in the source: [world.entities] holds
      them, [player] in [main] and [self] in [take_turn] point into that
      list.  A reference is an index into [entities]; an attribute
      assignment is an update of the list at that index.  Entities are only
      ever appended, so an index stays valid for the whole session.
    - The [random] module is a tape of raw draws with a cursor; every call
      of [random.choice] or [random.randint] reads one cell and advances.
    - Terminal input and output ([curses], [time.sleep], [World.draw]) are
      left out: they neither read nor write the simulation state. *)

From Stdlib Require Import ZArith String Ascii Lia.
From stdpp Require Import base list.

Local Open Scope Z_scope.

(** ** Configuration *)

Definition GX : Z := 32.
Definition GY : Z := 12.
Definition Q_SPAWN_INTERVAL : Z := 10.
Definition Q_MOVE_INTERVAL : Z := 2.
Definition Q_RANGE : Z := 2.

(** ** Entities *)

(** [class Entity].  The subclasses [Enemy] and [QEnemy] add no attribute
    that is ever read ([QEnemy.move_cooldown] is written once in
    [__init__] and never used); they differ by [char] and by [take_turn],
    which the main loop selects through [char]. *)
Record Entity : Type := mkEntity {
  x : Z;
  y : Z;
  char : string;
  solid : bool
}.

Definition Enemy (ex ey : Z) : Entity := mkEntity ex ey "E"%string true.
Definition QEnemy (ex ey : Z) : Entity := mkEntity ex ey "Q"%string true.

Definition at_cell (cx cy : Z) (e : Entity) : bool :=
  (x e =? cx) && (y e =? cy).

(** ** World *)

Record World : Type := mkWorld {
  width : Z;
  height : Z;
  entities : list Entity;
  game_over : bool;
  win : bool
}.

Definition World_init (w h : Z) : World := mkWorld w h [] false false.

Definition with_entities (w : World) (es : list Entity) : World :=
  mkWorld (width w) (height w) es (game_over w) (win w).

Definition set_game_over (w : World) : World :=
  mkWorld (width w) (height w) (entities w) true (win w).

Definition set_win (w : World) : World :=
  mkWorld (width w) (height w) (entities w) (game_over w) true.

(** [self.x, self.y = nx, ny] on the object behind reference [i]. *)
Definition set_pos (i : nat) (nx ny : Z) (w : World) : World :=
  match entities w !! i with
  | Some e => with_entities w (<[i := mkEntity nx ny (char e) (solid e)]> (entities w))
  | None => w
  end.

Definition add_entity (e : Entity) (w : World) : World :=
  with_entities w (entities w ++ [e]).

Definition get_entity_at (w : World) (cx cy : Z) : option Entity :=
  List.find (at_cell cx cy) (entities w).

Definition is_solid_at (w : World) (cx cy : Z) : bool :=
  if (cx <? 0) || (cx >=? width w) || (cy <? 0) || (cy >=? height w) then true
  else existsb (fun e => solid e && at_cell cx cy e) (entities w).

Definition get_player (w : World) : option Entity :=
  List.find (fun e => (char e =? "@")%string) (entities w).

(** References (indices) of the entities that satisfy [p], in list order:
    the list comprehension [[e for e in self.entities if ...]]. *)
Definition refs_where (p : Entity -> bool) (es : list Entity) : list nat :=
  List.filter (fun i => match es !! i with Some e => p e | None => false end)
              (seq 0 (length es)).

Definition get_enemies (w : World) : list nat :=
  refs_where (fun e => (char e =? "E")%string) (entities w).

Definition get_q_enemies (w : World) : list nat :=
  refs_where (fun e => (char e =? "Q")%string) (entities w).

(** [Entity.move] *)
Definition move (self : nat) (dx dy : Z) (w : World) : World :=
  match entities w !! self with
  | Some e =>
      let new_x := x e + dx in
      let new_y := y e + dy in
      if negb (is_solid_at w new_x new_y) then set_pos self new_x new_y w else w
  | None => w
  end.

(** ** Randomness *)

Record Rand : Type := mkRand {
  tape : nat -> nat;
  cursor : nat
}.

Definition next (r : Rand) : nat * Rand :=
  (tape r (cursor r), mkRand (tape r) (S (cursor r))).

Definition MOVES : list (Z * Z) := [(1, 0); (-1, 0); (0, 1); (0, -1); (0, 0)].

(** [random.choice(l)] *)
Definition choice (l : list (Z * Z)) (r : Rand) : (Z * Z) * Rand :=
  let '(n, r') := next r in
  (nth (n mod length l)%nat l (0, 0), r').

(** [random.randint(a, b)], both ends included *)
Definition randint (a b : Z) (r : Rand) : Z * Rand :=
  let '(n, r') := next r in
  (a + Z.of_nat n mod (b - a + 1), r').

(** ** Enemy behaviours *)

(** [Enemy.take_turn(self, world)] *)
Definition Enemy_take_turn (self : nat) (w : World) (r : Rand) : World * Rand :=
  match entities w !! self with
  | None => (w, r)
  | Some e =>
      let '(d, r') := choice MOVES r in
      let new_x := x e + d.1 in
      let new_y := y e + d.2 in
      if is_solid_at w new_x new_y then (w, r')
      else
        match get_player w with
        | Some player =>
            if (x player =? new_x) && (y player =? new_y)
            then (set_game_over w, r')
            else (set_pos self new_x new_y w, r')
        | None => (set_pos self new_x new_y w, r')
        end
  end.

Definition manhattan (a b : Entity) : Z :=
  Z.abs (x a - x b) + Z.abs (y a - y b).

(** [QEnemy.take_turn(self, world, player_moves)] *)
Definition QEnemy_take_turn (self : nat) (w : World) (player_moves : Z) (r : Rand)
  : World * Rand :=
  if negb (player_moves mod Q_MOVE_INTERVAL =? 0) then (w, r)
  else
    match entities w !! self with
    | None => (w, r)
    | Some e =>
        let '(d, r') := choice MOVES r in
        let new_x := x e + d.1 in
        let new_y := y e + d.2 in
        let w1 := if negb (is_solid_at w new_x new_y)
                  then set_pos self new_x new_y w else w in
        match get_player w1, entities w1 !! self with
        | Some player, Some e1 =>
            if manhattan e1 player <=? Q_RANGE then (set_game_over w1, r') else (w1, r')
        | _, _ => (w1, r')
        end
    end.

(** ** The main loop *)

(** The locals of [main] that survive an iteration.  [player] is the first
    object added to the world, so the reference held by [main] is index 0. *)
Record Game : Type := mkGame {
  world : World;
  direction : Z * Z;
  player_moves : Z;
  rand : Rand
}.

Definition player : nat := 0%nat.

(** What [stdscr.getch()] followed by [chr(key).lower()] selects.  [chr]
    raises [ValueError] outside the code-point range; the only characters
    whose lower case is one of [q w s a d] are those letters and their
    capitals. *)
Inductive Key : Type :=
| NoKey
| BadKey
| KeyQuit
| KeyDir (d : Z * Z)
| KeyOther.

Definition letter (c key : Z) : bool := (key =? c) || (key =? c - 32).

Definition read_key (key : Z) : Key :=
  if key =? -1 then NoKey
  else if (key <? 0) || (key >? 1114111) then BadKey
  else if letter 113 key then KeyQuit
  else if letter 119 key then KeyDir (0, -1)
  else if letter 115 key then KeyDir (0, 1)
  else if letter 97 key then KeyDir (-1, 0)
  else if letter 100 key then KeyDir (1, 0)
  else KeyOther.

(** One record per call made while a turn is resolved, in call order. *)
Inductive Event : Type :=
| Act_E (self : nat)
| Act_Q (self : nat)
| Spawn_try (sx sy : Z).

Inductive Outcome : Type :=
| Continue (g : Game) (tr : list Event)
| Break
| ValueError.

(** Lines 168-183: the player's move against the target cell.  The boolean
    is [moved_this_turn].  A reference of the source always points to a live
    object; the [None] branches here and in the [take_turn] functions only
    make the lookups total and are never taken from a state with [player]
    bound, nor for a reference taken from a snapshot. *)
Definition player_step (d : Z * Z) (w : World) : World * bool :=
  match entities w !! player with
  | None => (w, false)
  | Some p =>
      let new_x := x p + d.1 in
      let new_y := y p + d.2 in
      match get_entity_at w new_x new_y with
      | Some target =>
          if (char target =? "E")%string || (char target =? "Q")%string
          then (set_game_over w, false)
          else if (char target =? "G")%string then (set_win w, false)
          else if negb (solid target) then (set_pos player new_x new_y w, true)
          else (w, false)
      | None =>
          if negb (is_solid_at w new_x new_y)
          then (set_pos player new_x new_y w, true)
          else (w, false)
      end
  end.

(** [for e in world.get_enemies(): e.take_turn(world)] over the snapshot
    [refs]. *)
Fixpoint enemies_pass (refs : list nat) (w : World) (r : Rand) : World * Rand :=
  match refs with
  | [] => (w, r)
  | e :: rest => let '(w', r') := Enemy_take_turn e w r in enemies_pass rest w' r'
  end.

(** [for q in world.get_q_enemies(): q.take_turn(world, player_moves)] *)
Fixpoint q_pass (refs : list nat) (w : World) (pm : Z) (r : Rand) : World * Rand :=
  match refs with
  | [] => (w, r)
  | q :: rest => let '(w', r') := QEnemy_take_turn q w pm r in q_pass rest w' pm r'
  end.

(** Lines 197-201: the spawn step, with the cell it tried. *)
Definition spawn_step (w : World) (r : Rand) : World * Rand * (Z * Z) :=
  let '(spawn_x, r1) := randint 2 (GX - 4) r in
  let '(spawn_y, r2) := randint 1 (GY - 3) r1 in
  if negb (is_solid_at w spawn_x spawn_y)
  then (add_entity (QEnemy spawn_x spawn_y) w, r2, (spawn_x, spawn_y))
  else (w, r2, (spawn_x, spawn_y)).

(** Lines 186-201: what follows a successful displacement. *)
Definition after_move (w : World) (pm : Z) (r : Rand) : World * Rand * list Event :=
  let es := get_enemies w in
  let '(w1, r1) := enemies_pass es w r in
  let qs := get_q_enemies w1 in
  let '(w2, r2) := q_pass qs w1 pm r1 in
  let tr := map Act_E es ++ map Act_Q qs in
  if pm mod Q_SPAWN_INTERVAL =? 0 then
    let '(w3, r3, (sx, sy)) := spawn_step w2 r2 in
    (w3, r3, tr ++ [Spawn_try sx sy])
  else (w2, r2, tr).

(** Lines 167-203: the body of [if direction != (0, 0)]. *)
Definition turn (d : Z * Z) (g : Game) : Game * list Event :=
  let '(w1, moved_this_turn) := player_step d (world g) in
  if moved_this_turn then
    let pm := player_moves g + 1 in
    let '(w2, r2, tr) := after_move w1 pm (rand g) in
    (mkGame w2 (0, 0) pm r2, tr)
  else (mkGame w1 (0, 0) (player_moves g) (rand g), []).

Definition is_zero (d : Z * Z) : bool := (d.1 =? 0) && (d.2 =? 0).

(** One iteration of the [while] loop, for the value [key] of [getch()]. *)
Definition tick (key : Z) (g : Game) : Outcome :=
  match read_key key with
  | BadKey => ValueError
  | KeyQuit => Break
  | k =>
      let d := match k with KeyDir d => d | _ => direction g end in
      if negb (is_zero d) then
        let '(g', tr) := turn d g in Continue g' tr
      else Continue (mkGame (world g) d (player_moves g) (rand g)) []
  end.

(** The loop condition. *)
Definition running (g : Game) : bool :=
  negb (game_over (world g)) && negb (win (world g)).

(** The loop on a finite prefix of inputs. *)
Fixpoint run (keys : list Z) (g : Game) : Game :=
  match keys with
  | [] => g
  | k :: ks =>
      if running g then
        match tick k g with
        | Continue g' _ => run ks g'
        | _ => g
        end
      else g
  end.

(** The end screen: [win] is tested first. *)
Inductive Status : Type := Playing | Won | Lost.

Definition status (w : World) : Status :=
  if win w then Won else if game_over w then Lost else Playing.

(** The world [main] builds before the loop. *)
Definition floor_row (w h : Z) : list Entity :=
  map (fun i => mkEntity (Z.of_nat i) (h - 1) "#"%string true) (seq 0 (Z.to_nat w)).

(** [for e in es: world.add_entity(e)] *)
Definition add_all (es : list Entity) (w : World) : World :=
  fold_left (fun w' e => add_entity e w') es w.

Definition initial_world : World :=
  let w0 := World_init GX GY in
  let w1 := add_entity (mkEntity 1 (GY - 2) "@"%string true) w0 in
  let w2 := add_all [Enemy 10 (GY - 2); Enemy 18 (GY - 3); Enemy 24 (GY - 2)] w1 in
  let w3 := add_entity (mkEntity (GX - 3) (GY - 2) "G"%string false) w2 in
  add_all (floor_row GX GY) w3.

Definition initial_game (tp : nat -> nat) : Game :=
  mkGame initial_world (0, 0) 0 (mkRand tp 0).

(** States at the head of the loop. *)
Inductive Reachable : Game -> Prop :=
| reach_init (tp : nat -> nat) : Reachable (initial_game tp)
| reach_tick (g g' : Game) (key : Z) (tr : list Event) :
    Reachable g -> running g = true -> tick key g = Continue g' tr -> Reachable g'.

Definition pos (e : Entity) : Z * Z := (x e, y e).

Definition player_pos (w : World) : option (Z * Z) :=
  pos <$> entities w !! player.

(** The direction an iteration works with: the key's, or the one left in
    [direction] by the previous iteration. *)
Definition key_direction (key : Z) (g : Game) : Z * Z :=
  match read_key key with
  | KeyDir d => d
  | _ => direction g
  end.

(** ** Predicates on states *)

(** [enemy_effect w w'] collects what no enemy activation can change: the
    grid size, the [win] flag, the number of entities and every entity's
    [char] and [solid]. *)
Record enemy_effect (w w' : World) : Prop := mkEffect {
  eff_width : width w' = width w;
  eff_height : height w' = height w;
  eff_win : win w' = win w;
  eff_length : length (entities w') = length (entities w);
  eff_char : ∀ i, char <$> entities w' !! i = char <$> entities w !! i;
  eff_solid : ∀ i, solid <$> entities w' !! i = solid <$> entities w !! i
}.

(** At the head of the loop [direction] is [(0, 0)]: it starts so and the
    body of [if direction != (0, 0)] ends by resetting it. *)
Definition loop_head (g : Game) : Prop := direction g = (0, 0).

(** The reference [player] of [main] points to the entity drawn as [@]. *)
Definition player_bound (w : World) : Prop :=
  ∃ p, entities w !! player = Some p ∧ char p = "@"%string.

Definition is_enemy (e : Entity) : Prop :=
  char e = "E"%string ∨ char e = "Q"%string.

(** Two distinct enemies on one cell. *)
Definition stacked (w : World) : Prop :=
  ∃ i j ei ej, i ≠ j ∧ entities w !! i = Some ei ∧ entities w !! j = Some ej
               ∧ is_enemy ei ∧ is_enemy ej ∧ pos ei = pos ej.

(** Every enemy is solid, as [Enemy.__init__] and [QEnemy.__init__] make it. *)
Definition enemies_solid (w : World) : Prop :=
  ∀ i e, entities w !! i = Some e → is_enemy e → solid e = true.

(** The enemies are solid and no two of them share a cell. *)
Definition tidy (w : World) : Prop := enemies_solid w ∧ ¬ stacked w.

(** ** Concrete sessions *)

Definition key_d : Z := 100.

Definition stay_tape : nat → nat := fun _ => 4%nat.

(** A 12 by 3 world: the player at (1,1), the goal at (9,1), a wall along
    y = 2, no enemy; entities in the order [main] adds them. *)
Definition scenario_A (tp : nat → nat) : Game :=
  let w0 := World_init 12 3 in
  let w1 := add_entity (mkEntity 1 1 "@"%string true) w0 in
  let w2 := add_entity (mkEntity 9 1 "G"%string false) w1 in
  mkGame (add_all (floor_row 12 3) w2) (0, 0) 0 (mkRand tp 0).

(** A pursuer two cells to the right of the player. *)
Definition pursuer_world : World :=
  mkWorld 8 4 [mkEntity 1 1 "@"%string true; QEnemy 3 1] false false.

(** The first roamer is sent left on its first draw and on draw 18, its
    activation in the seventh turn; every other draw is "stay". *)
Definition ambush_tape : nat → nat :=
  fun n => if (n =? 0)%nat then 1%nat else if (n =? 18)%nat then 1%nat else 4%nat.

(** Nine successful moves already made, open floor to the right. *)
Definition before_spawn : Game :=
  mkGame (mkWorld GX GY [mkEntity 1 1 "@"%string true] false false)
         (0, 0) 9 (mkRand (fun _ => 3%nat) 0).

(** ** Rendering *)

(** What [World.draw] sends to the screen, call by call. *)
Inductive ScreenOp : Type :=
| Clear
| AddStr (row col : Z) (s : string)
| Refresh.

(** [range(n)] *)
Definition range (n : Z) : list Z := map Z.of_nat (seq 0 (Z.to_nat n)).

Definition LEGEND : string := "Use WASD to move. Press Q to quit.".

(** The string drawn for a cell: the [char] of the first entity found
    there, or an underscore. *)
Definition glyph (w : World) (cx cy : Z) : string :=
  match get_entity_at w cx cy with
  | Some entity => char entity
  | None => "_"%string
  end.

(** [World.draw(self, stdscr)] *)
Definition draw (w : World) : list ScreenOp :=
  [Clear]
  ++ flat_map (fun cy => map (fun cx => AddStr cy (cx * 2) (glyph w cx cy))
                             (range (width w)))
              (range (height w))
  ++ [AddStr (height w + 1) 0 LEGEND; Refresh].

(** Lines 189-194: the two activation passes of a turn, each over the
    snapshot taken when it starts. *)
Definition passes (w : World) (pm : Z) (r : Rand) : World * Rand :=
  let '(w1, r1) := enemies_pass (get_enemies w) w r in
  q_pass (get_q_enemies w1) w1 pm r1.


(** Nine successful moves made; a roamer and a pursuer far from the player,
    and a tape whose draws send the spawn to (5,4), next to the cell the
    player steps on. *)
Definition crowded : Game :=
  mkGame (mkWorld GX GY
            [mkEntity 3 4 "@"%string true; Enemy 20 8; QEnemy 25 5]
            false false)
         (0, 0) 9 (mkRand (fun _ => 3%nat) 0).

(** The state after one more iteration, when the loop goes on. *)
Definition after_tick (key : Z) (g : Game) : Game :=
  match tick key g with
  | Continue g' _ => g'
  | _ => g
  end.

(** ** More predicates on states *)

Definition in_grid (w : World) (cx cy : Z) : Prop :=
  0 <= cx < width w ∧ 0 <= cy < height w.

(** Every entity stands on a cell of the grid. *)
Definition all_in_grid (w : World) : Prop :=
  ∀ i e, entities w !! i = Some e → in_grid w (x e) (y e).

(** No two solid entities share a cell. *)
Definition solids_apart (w : World) : Prop :=
  ∀ i j ei ej, i ≠ j → entities w !! i = Some ei → entities w !! j = Some ej →
               solid ei = true → solid ej = true → pos ei ≠ pos ej.

(** The only entities that do not block movement are goals. *)
Definition passable_is_goal (w : World) : Prop :=
  ∀ i e, entities w !! i = Some e → solid e = false → char e = "G"%string.

(** The entity behind [player] is solid and is the only one drawn as [@]. *)
Definition sole_player (w : World) : Prop :=
  (∃ p, entities w !! player = Some p ∧ char p = "@"%string ∧ solid p = true)
  ∧ ∀ i e, entities w !! i = Some e → char e = "@"%string → i = player.

(** The outcome of an activation for the enemy itself: it keeps its place,
    or it has gone one cell up, down, left or right, onto a cell that was
    not solid. *)
Definition stepped (w : World) (e e' : Entity) : Prop :=
  char e' = char e ∧ solid e' = solid e
  ∧ (pos e' = pos e
     ∨ (manhattan e' e = 1 ∧ is_solid_at w (x e') (y e') = false)).

(** The number of pursuers in the world. *)
Definition q_count (w : World) : nat := length (get_q_enemies w).

(** The facts about the world that every iteration of the loop keeps. *)
Definition sound (w : World) : Prop :=
  sole_player w ∧ passable_is_goal w ∧ solids_apart w ∧ all_in_grid w.

(** A small world for examples: the player, a roamer next to it, a goal, and
    a pursuer further right, on a 8 by 4 grid. *)
Definition yard : World :=
  mkWorld 8 4
    [mkEntity 1 1 "@"%string true; Enemy 2 1; mkEntity 6 1 "G"%string false;
     QEnemy 5 2]
    false false.

(** * Properties *)

#[local] Arguments choice : simpl never.
#[local] Arguments randint : simpl never.
#[local] Arguments Z.modulo : simpl never.

(** ** What an attribute assignment leaves alone *)

Section Frames.

Implicit Types (w : World) (r : Rand) (i j self : nat).

Lemma set_pos_width i nx ny w : width (set_pos i nx ny w) = width w.
Proof. unfold set_pos. by destruct (entities w !! i). Qed.

Lemma set_pos_height i nx ny w : height (set_pos i nx ny w) = height w.
Proof. unfold set_pos. by destruct (entities w !! i). Qed.

Lemma set_pos_game_over i nx ny w : game_over (set_pos i nx ny w) = game_over w.
Proof. unfold set_pos. by destruct (entities w !! i). Qed.

Lemma set_pos_win i nx ny w : win (set_pos i nx ny w) = win w.
Proof. unfold set_pos. by destruct (entities w !! i). Qed.

Lemma set_pos_length i nx ny w :
  length (entities (set_pos i nx ny w)) = length (entities w).
Proof.
  unfold set_pos. destruct (entities w !! i); [|done].
  simpl. apply length_insert.
Qed.

Lemma set_pos_lookup_ne i j nx ny w :
  i ≠ j → entities (set_pos i nx ny w) !! j = entities w !! j.
Proof.
  intros Hne. unfold set_pos. destruct (entities w !! i); [|done].
  simpl. by apply list_lookup_insert_ne.
Qed.

Lemma set_pos_lookup_eq i nx ny w e :
  entities w !! i = Some e →
  entities (set_pos i nx ny w) !! i = Some (mkEntity nx ny (char e) (solid e)).
Proof.
  intros He. unfold set_pos. rewrite He. simpl.
  apply list_lookup_insert_eq. by eapply lookup_lt_Some.
Qed.

(** The assignment writes [x] and [y] only. *)
Lemma set_pos_lookup_attr {A} (f : Entity → A) i j nx ny w :
  (∀ e, f (mkEntity nx ny (char e) (solid e)) = f e) →
  f <$> entities (set_pos i nx ny w) !! j = f <$> entities w !! j.
Proof.
  intros Hf. destruct (decide (i = j)) as [->|Hne].
  - destruct (entities w !! j) as [e|] eqn:He.
    + rewrite (set_pos_lookup_eq _ _ _ _ _ He). simpl. by rewrite Hf.
    + unfold set_pos. rewrite He. simpl. by rewrite He.
  - by rewrite set_pos_lookup_ne.
Qed.

Lemma set_pos_same i w e :
  entities w !! i = Some e → set_pos i (x e + 0) (y e + 0) w = w.
Proof.
  intros He. unfold set_pos. rewrite He, !Z.add_0_r.
  destruct e as [ex ey c s]. simpl.
  rewrite list_insert_id by done. by destruct w.
Qed.

End Frames.

(** ** The footprint of enemy logic *)

Lemma enemy_effect_refl (w : World) : enemy_effect w w.
Proof. by split. Qed.

Lemma enemy_effect_trans (w1 w2 w3 : World) :
  enemy_effect w1 w2 → enemy_effect w2 w3 → enemy_effect w1 w3.
Proof.
  intros [a1 a2 a3 a4 a5 a6] [b1 b2 b3 b4 b5 b6]. split; congruence.
Qed.

Lemma enemy_effect_set_pos (i : nat) (nx ny : Z) (w : World) :
  enemy_effect w (set_pos i nx ny w).
Proof.
  split.
  - apply set_pos_width.
  - apply set_pos_height.
  - apply set_pos_win.
  - apply set_pos_length.
  - intros j. by apply set_pos_lookup_attr.
  - intros j. by apply set_pos_lookup_attr.
Qed.

Lemma enemy_effect_set_game_over (w : World) : enemy_effect w (set_game_over w).
Proof. by split. Qed.

Create HintDb effect.
#[local] Hint Resolve enemy_effect_refl enemy_effect_set_pos
  enemy_effect_set_game_over : effect.

Lemma Enemy_take_turn_effect (self : nat) (w : World) (r : Rand) :
  enemy_effect w (Enemy_take_turn self w r).1.
Proof.
  unfold Enemy_take_turn. repeat case_match; simpl; auto with effect.
Qed.

Lemma QEnemy_take_turn_effect (self : nat) (w : World) (pm : Z) (r : Rand) :
  enemy_effect w (QEnemy_take_turn self w pm r).1.
Proof.
  unfold QEnemy_take_turn. repeat case_match; simpl; subst; auto with effect.
  eapply enemy_effect_trans;
    [apply enemy_effect_set_pos | apply enemy_effect_set_game_over].
Qed.

Lemma enemies_pass_effect (refs : list nat) (w : World) (r : Rand) :
  enemy_effect w (enemies_pass refs w r).1.
Proof.
  revert w r. induction refs as [|e rest IH]; intros w r; simpl.
  - apply enemy_effect_refl.
  - pose proof (Enemy_take_turn_effect e w r) as He.
    destruct (Enemy_take_turn e w r) as [w' r']. simpl in He.
    eapply enemy_effect_trans; [exact He | apply IH].
Qed.

Lemma q_pass_effect (refs : list nat) (w : World) (pm : Z) (r : Rand) :
  enemy_effect w (q_pass refs w pm r).1.
Proof.
  revert w r. induction refs as [|q rest IH]; intros w r; simpl.
  - apply enemy_effect_refl.
  - pose proof (QEnemy_take_turn_effect q w pm r) as Hq.
    destruct (QEnemy_take_turn q w pm r) as [w' r']. simpl in Hq.
    eapply enemy_effect_trans; [exact Hq | apply IH].
Qed.

(** ** Snapshots and the entities outside them *)

Lemma In_refs_where (p : Entity → bool) (es : list Entity) (i : nat) :
  In i (refs_where p es) ↔ ∃ e, es !! i = Some e ∧ p e = true.
Proof.
  unfold refs_where. rewrite filter_In, in_seq. split.
  - intros [_ Hp]. destruct (es !! i) as [e|]; [eauto | discriminate].
  - intros (e & He & Hp). rewrite He. split; [|done].
    apply lookup_lt_Some in He. lia.
Qed.

Lemma refs_where_lt (p : Entity → bool) (es : list Entity) (i : nat) :
  In i (refs_where p es) → (i < length es)%nat.
Proof.
  rewrite In_refs_where. intros (e & He & _). by eapply lookup_lt_Some.
Qed.

Lemma Enemy_take_turn_lookup_ne (self j : nat) (w : World) (r : Rand) :
  self ≠ j → entities (Enemy_take_turn self w r).1 !! j = entities w !! j.
Proof.
  intros Hne. unfold Enemy_take_turn.
  repeat case_match; simpl; auto using set_pos_lookup_ne.
Qed.

Lemma QEnemy_take_turn_lookup_ne (self j : nat) (w : World) (pm : Z) (r : Rand) :
  self ≠ j → entities (QEnemy_take_turn self w pm r).1 !! j = entities w !! j.
Proof.
  intros Hne. unfold QEnemy_take_turn.
  repeat case_match; simpl; subst; simpl; auto using set_pos_lookup_ne.
Qed.

Lemma enemies_pass_lookup_ne (refs : list nat) (j : nat) (w : World) (r : Rand) :
  ¬ In j refs → entities (enemies_pass refs w r).1 !! j = entities w !! j.
Proof.
  revert w r. induction refs as [|e rest IH]; intros w r Hj; simpl; [done|].
  pose proof (Enemy_take_turn_lookup_ne e j w r) as He.
  destruct (Enemy_take_turn e w r) as [w' r']. simpl in He.
  rewrite IH, He; [done | |]; intros ?; apply Hj; simpl; auto.
Qed.

Lemma q_pass_lookup_ne (refs : list nat) (j : nat) (w : World) (pm : Z) (r : Rand) :
  ¬ In j refs → entities (q_pass refs w pm r).1 !! j = entities w !! j.
Proof.
  revert w r. induction refs as [|q rest IH]; intros w r Hj; simpl; [done|].
  pose proof (QEnemy_take_turn_lookup_ne q j w pm r) as Hq.
  destruct (QEnemy_take_turn q w pm r) as [w' r']. simpl in Hq.
  rewrite IH, Hq; [done | |]; intros ?; apply Hj; simpl; auto.
Qed.

(** ** Case analysis of one loop iteration *)

Lemma tick_Continue_inv (key : Z) (g g' : Game) (tr : list Event) :
  tick key g = Continue g' tr →
  let d := key_direction key g in
  (is_zero d = true ∧ g' = mkGame (world g) d (player_moves g) (rand g) ∧ tr = [])
  ∨ (is_zero d = false ∧ turn d g = (g', tr)).
Proof.
  unfold tick, key_direction.
  destruct (read_key key) as [| | |d|]; try discriminate.
  all: simpl; match goal with
       | |- context [is_zero ?d] => destruct (is_zero d) eqn:Hz
       end; simpl.
  all: try (intros [= <- <-]; left; done).
  all: destruct (turn _ g) as [g1 tr1]; intros [= <- <-]; right; done.
Qed.

Lemma turn_inv (d : Z * Z) (g g' : Game) (tr : list Event) :
  turn d g = (g', tr) →
  ∃ w1 moved, player_step d (world g) = (w1, moved) ∧
    if moved
    then ∃ w2 r2, after_move w1 (player_moves g + 1) (rand g) = (w2, r2, tr)
                  ∧ g' = mkGame w2 (0, 0) (player_moves g + 1) r2
    else g' = mkGame w1 (0, 0) (player_moves g) (rand g) ∧ tr = [].
Proof.
  unfold turn. destruct (player_step d (world g)) as [w1 [|]].
  - destruct (after_move _ _ _) as [[w2 r2] tr2] eqn:Ha. intros [= <- <-].
    exists w1, true. split; [done|]. simpl. by exists w2, r2.
  - intros [= <- <-]. by exists w1, false.
Qed.

Lemma after_move_inv (w w' : World) (pm : Z) (r r' : Rand) (tr : list Event) :
  after_move w pm r = (w', r', tr) →
  ∃ w1 r1 w2 r2,
    enemies_pass (get_enemies w) w r = (w1, r1)
    ∧ q_pass (get_q_enemies w1) w1 pm r1 = (w2, r2)
    ∧ let acts := map Act_E (get_enemies w) ++ map Act_Q (get_q_enemies w1) in
      if pm mod Q_SPAWN_INTERVAL =? 0
      then ∃ sx sy, spawn_step w2 r2 = (w', r', (sx, sy))
                    ∧ tr = acts ++ [Spawn_try sx sy]
      else w' = w2 ∧ r' = r2 ∧ tr = acts.
Proof.
  unfold after_move.
  destruct (enemies_pass _ w r) as [w1 r1] eqn:He.
  destruct (q_pass _ w1 pm r1) as [w2 r2] eqn:Hq.
  intros H. exists w1, r1, w2, r2. split; [done|]. split; [done|]. simpl.
  destruct (pm mod Q_SPAWN_INTERVAL =? 0).
  - destruct (spawn_step w2 r2) as [[w3 r3] [sx sy]].
    injection H as <- <- <-. by exists sx, sy.
  - by injection H as <- <- <-.
Qed.

(** The spawn step appends one pursuer on a free cell or does nothing. *)
Lemma spawn_step_inv (w w' : World) (r r' : Rand) (sx sy : Z) :
  spawn_step w r = (w', r', (sx, sy)) →
  (is_solid_at w sx sy = false ∧ w' = add_entity (QEnemy sx sy) w)
  ∨ (is_solid_at w sx sy = true ∧ w' = w).
Proof.
  unfold spawn_step.
  destruct (randint 2 (GX - 4) r) as [spawn_x r1].
  destruct (randint 1 (GY - 3) r1) as [spawn_y r2].
  destruct (is_solid_at w spawn_x spawn_y) eqn:Hs; simpl;
    intros H; simplify_eq; auto.
Qed.

(** The player's move: either the player is displaced to the target cell,
    or no entity changes. *)
Lemma player_step_inv (d : Z * Z) (w w1 : World) (moved : bool) :
  player_step d w = (w1, moved) →
  if moved
  then ∃ p, entities w !! player = Some p
            ∧ w1 = set_pos player (x p + d.1) (y p + d.2) w
  else entities w1 = entities w ∧ width w1 = width w ∧ height w1 = height w.
Proof.
  unfold player_step. destruct (entities w !! player) as [p|] eqn:Hp.
  - intros H. repeat case_match; simplify_eq; simpl; eauto.
  - by intros [= <- <-].
Qed.

(** ** Pursuer activation *)

Lemma mod_interval_test (pm : Z) :
  negb (pm mod Q_MOVE_INTERVAL =? 0) = false ↔ pm mod 2 = 0.
Proof.
  unfold Q_MOVE_INTERVAL. destruct (pm mod 2 =? 0) eqn:E; simpl.
  - apply Z.eqb_eq in E. tauto.
  - apply Z.eqb_neq in E. split; [discriminate | tauto].
Qed.

(** C6: a Pursuer activation with [player_moves mod 2 != 0] does nothing:
    the world it returns, hence the Pursuer's position and the [game_over]
    flag, is the world it was given, and no random draw is consumed. *)
Theorem QEnemy_off_beat_is_noop (self : nat) (w : World) (pm : Z) (r : Rand) :
  pm mod 2 ≠ 0 →
  QEnemy_take_turn self w pm r = (w, r)
  ∧ entities (QEnemy_take_turn self w pm r).1 !! self = entities w !! self
  ∧ game_over (QEnemy_take_turn self w pm r).1 = game_over w.
Proof.
  intros Hpm.
  assert (QEnemy_take_turn self w pm r = (w, r)) as ->; [|done].
  unfold QEnemy_take_turn.
  destruct (negb (pm mod Q_MOVE_INTERVAL =? 0)) eqn:E; [done|].
  by apply mod_interval_test in E.
Qed.

Lemma QEnemy_off_beat_is_noop_witness :
  QEnemy_take_turn 1 pursuer_world 1 (mkRand stay_tape 0)
    = (pursuer_world, mkRand stay_tape 0)
  ∧ entities (QEnemy_take_turn 1 pursuer_world 1 (mkRand stay_tape 0)).1 !! 1%nat
    = entities pursuer_world !! 1%nat
  ∧ game_over (QEnemy_take_turn 1 pursuer_world 1 (mkRand stay_tape 0)).1
    = game_over pursuer_world.
Proof.
  apply (QEnemy_off_beat_is_noop 1 pursuer_world 1 (mkRand stay_tape 0)).
  vm_compute. discriminate.
Defined.

(** C5: on a Pursuer activation with [player_moves mod 2 == 0], once the
    move attempt is resolved, a Manhattan distance of at most 2 between the
    Pursuer and the Player sets [game_over]; in particular a Pursuer that
    draws "stay" at distance exactly 2 turns a running game into Lost. *)
Theorem QEnemy_detects_within_range :
  (∀ (self : nat) (w : World) (pm : Z) (r : Rand) (e p : Entity),
      pm mod 2 = 0 →
      entities (QEnemy_take_turn self w pm r).1 !! self = Some e →
      get_player (QEnemy_take_turn self w pm r).1 = Some p →
      manhattan e p <= 2 →
      game_over (QEnemy_take_turn self w pm r).1 = true)
  ∧ (∀ (self : nat) (w : World) (pm : Z) (r : Rand) (e p : Entity),
      pm mod 2 = 0 →
      entities w !! self = Some e →
      get_player w = Some p →
      (choice MOVES r).1 = (0, 0) →
      manhattan e p = 2 →
      win w = false →
      status (QEnemy_take_turn self w pm r).1 = Lost).
Proof.
  split.
  - intros self w pm r e p Hpm. apply mod_interval_test in Hpm.
    unfold QEnemy_take_turn. rewrite Hpm.
    destruct (entities w !! self) as [e0|] eqn:He0.
    { destruct (choice MOVES r) as [d r'].
      set (w1 := if negb (is_solid_at w (x e0 + d.1) (y e0 + d.2))
                 then set_pos self (x e0 + d.1) (y e0 + d.2) w else w).
      destruct (get_player w1) as [pl|] eqn:Hpl;
        [destruct (entities w1 !! self) as [e1|] eqn:He1|]; simpl.
      - destruct (manhattan e1 pl <=? Q_RANGE) eqn:Hd; simpl; [done|].
        rewrite He1, Hpl. intros [= ->] [= ->] Hle.
        apply Z.leb_gt in Hd. unfold Q_RANGE in Hd. lia.
      - rewrite He1. discriminate.
      - rewrite Hpl. intros _. discriminate. }
    simpl. rewrite He0. discriminate.
  - intros self w pm r e p Hpm He Hp Hstay Hdist Hwin.
    apply mod_interval_test in Hpm.
    unfold QEnemy_take_turn. rewrite Hpm, He.
    destruct (choice MOVES r) as [d r']. simpl in Hstay. subst d. simpl.
    rewrite (set_pos_same _ _ _ He).
    assert ((if negb (is_solid_at w (x e + 0) (y e + 0)) then w else w) = w)
      as -> by (by destruct (is_solid_at w _ _)).
    rewrite Hp, He.
    assert ((manhattan e p <=? Q_RANGE) = true) as ->
      by (apply Z.leb_le; unfold Q_RANGE; lia).
    unfold status. simpl. by rewrite Hwin.
Qed.

Lemma QEnemy_detects_within_range_witness :
  game_over (QEnemy_take_turn 1 pursuer_world 0 (mkRand stay_tape 0)).1 = true
  ∧ status (QEnemy_take_turn 1 pursuer_world 0 (mkRand stay_tape 0)).1 = Lost.
Proof.
  split.
  - apply (proj1 QEnemy_detects_within_range 1%nat pursuer_world 0
             (mkRand stay_tape 0) (QEnemy 3 1) (mkEntity 1 1 "@" true)).
    + reflexivity.
    + reflexivity.
    + reflexivity.
    + vm_compute. discriminate.
  - apply (proj2 QEnemy_detects_within_range 1%nat pursuer_world 0
             (mkRand stay_tape 0) (QEnemy 3 1) (mkEntity 1 1 "@" true));
      reflexivity.
Defined.

(** ** Ticks without a direction *)

(** C9: at the head of the loop, a tick whose input is no key, or a key
    other than w, a, s, d and q, returns the very state it was given (the
    world with its entities and flags, [player_moves], hence the status)
    and makes no call into the enemy logic. *)
Theorem idle_tick_is_identity (g : Game) (key : Z) :
  loop_head g →
  read_key key = NoKey ∨ read_key key = KeyOther →
  tick key g = Continue g [].
Proof.
  unfold loop_head. intros Hd Hk.
  unfold tick. destruct g as [w d pm r]. simpl in *. subst d.
  by destruct Hk as [-> | ->].
Qed.

Lemma idle_tick_is_identity_witness :
  tick (-1) (initial_game stay_tape) = Continue (initial_game stay_tape) [].
Proof.
  apply (idle_tick_is_identity (initial_game stay_tape) (-1)).
  - reflexivity.
  - left. reflexivity.
Defined.

(** The loop-head condition is established by [main] and re-established by
    every iteration, so it holds in every reachable state. *)
Lemma tick_loop_head (key : Z) (g g' : Game) (tr : list Event) :
  loop_head g → tick key g = Continue g' tr → loop_head g'.
Proof.
  unfold loop_head. intros Hd Ht.
  apply tick_Continue_inv in Ht as [(Hz & -> & _) | (Hz & Ht)].
  - simpl. unfold is_zero in Hz. apply andb_true_iff in Hz as [H1 H2].
    apply Z.eqb_eq in H1, H2. destruct (key_direction key g). simpl in *. congruence.
  - apply turn_inv in Ht as (w1 & moved & _ & Hm). destruct moved.
    + by destruct Hm as (w2 & r2 & _ & ->).
    + by destruct Hm as [-> _].
Qed.

Lemma Reachable_loop_head (g : Game) : Reachable g → loop_head g.
Proof.
  induction 1 as [tp | g g' key tr _ IH _ Ht]; [done|].
  by eapply tick_loop_head.
Qed.

(** ** The win flag *)

Lemma after_move_win (w w' : World) (pm : Z) (r r' : Rand) (tr : list Event) :
  after_move w pm r = (w', r', tr) → win w' = win w.
Proof.
  intros H. apply after_move_inv in H as (w1 & r1 & w2 & r2 & He & Hq & H).
  pose proof (enemies_pass_effect (get_enemies w) w r) as E1.
  pose proof (q_pass_effect (get_q_enemies w1) w1 pm r1) as E2.
  rewrite He in E1. rewrite Hq in E2. simpl in *.
  destruct (pm mod Q_SPAWN_INTERVAL =? 0).
  - destruct H as (sx & sy & Hs & _).
    apply spawn_step_inv in Hs as [[_ ->] | [_ ->]]; simpl;
      rewrite (eff_win _ _ E2); apply (eff_win _ _ E1).
  - destruct H as (-> & _ & _). rewrite (eff_win _ _ E2). apply (eff_win _ _ E1).
Qed.

Lemma player_step_win (d : Z * Z) (w w1 : World) (moved : bool) :
  player_step d w = (w1, moved) →
  win w1 = win w
  ∨ (win w1 = true ∧ moved = false
     ∧ ∃ p t, entities w !! player = Some p
              ∧ get_entity_at w (x p + d.1) (y p + d.2) = Some t
              ∧ char t = "G"%string).
Proof.
  unfold player_step. destruct (entities w !! player) as [p|] eqn:Hp.
  - destruct (get_entity_at w (x p + d.1) (y p + d.2)) as [t|] eqn:Ht.
    + destruct ((char t =? "E")%string || (char t =? "Q")%string).
      { intros [= <- <-]. by left. }
      destruct (char t =? "G")%string eqn:HG.
      { intros [= <- <-]. right. apply String.eqb_eq in HG.
        repeat split; [done..|]. by exists p, t. }
      destruct (negb (solid t)); intros [= <- <-]; left;
        [apply set_pos_win | done].
    + destruct (negb (is_solid_at w _ _)); intros [= <- <-]; left;
        [apply set_pos_win | done].
  - intros [= <- <-]. by left.
Qed.

(** C10: the win flag changes only when the player's own move resolves
    onto the cell of a Goal entity; a Roamer activation, a Pursuer
    activation and the spawn step all leave it as it is. *)
Theorem win_set_only_by_player_on_goal :
  (∀ (self : nat) (w : World) (r : Rand),
      win (Enemy_take_turn self w r).1 = win w)
  ∧ (∀ (self : nat) (w : World) (pm : Z) (r : Rand),
      win (QEnemy_take_turn self w pm r).1 = win w)
  ∧ (∀ (w : World) (r : Rand), win (spawn_step w r).1.1 = win w)
  ∧ (∀ (g g' : Game) (key : Z) (tr : list Event),
      tick key g = Continue g' tr →
      win (world g') ≠ win (world g) →
      win (world g') = true
      ∧ ∃ p t, entities (world g) !! player = Some p
               ∧ get_entity_at (world g) (x p + (key_direction key g).1)
                                         (y p + (key_direction key g).2) = Some t
               ∧ char t = "G"%string).
Proof.
  split; [|split; [|split]].
  - intros self w r. apply (eff_win _ _ (Enemy_take_turn_effect self w r)).
  - intros self w pm r. apply (eff_win _ _ (QEnemy_take_turn_effect self w pm r)).
  - intros w r. destruct (spawn_step w r) as [[w' r'] [sx sy]] eqn:Hs.
    by apply spawn_step_inv in Hs as [[_ ->] | [_ ->]].
  - intros g g' key tr Ht Hne.
    apply tick_Continue_inv in Ht as [(_ & -> & _) | (_ & Ht)]; [done|].
    apply turn_inv in Ht as (w1 & moved & Hp & Hm).
    apply player_step_win in Hp as Hw. destruct moved.
    + destruct Hm as (w2 & r2 & Ha & ->). simpl in Hne.
      apply after_move_win in Ha.
      destruct Hw as [Hw | (_ & [=] & _)]. congruence.
    + destruct Hm as [-> _]. simpl in *.
      destruct Hw as [Hw | (Hw & _ & Hex)]; [congruence | done].
Qed.

Lemma win_set_only_by_player_on_goal_witness :
  win (world (run (replicate 8 key_d) (scenario_A stay_tape))) = true
  ∧ ∃ p t,
      entities (world (run (replicate 7 key_d) (scenario_A stay_tape))) !! player
        = Some p
      ∧ get_entity_at (world (run (replicate 7 key_d) (scenario_A stay_tape)))
          (x p + (key_direction key_d (run (replicate 7 key_d) (scenario_A stay_tape))).1)
          (y p + (key_direction key_d (run (replicate 7 key_d) (scenario_A stay_tape))).2)
        = Some t
      ∧ char t = "G"%string.
Proof.
  apply (proj2 (proj2 (proj2 win_set_only_by_player_on_goal))
           (run (replicate 7 key_d) (scenario_A stay_tape))
           (run (replicate 8 key_d) (scenario_A stay_tape))
           key_d []).
  - vm_compute. reflexivity.
  - vm_compute. discriminate.
Defined.

(** ** What a successful displacement triggers *)

(** The calls of a turn: the two activation passes over their snapshots,
    then at most one spawn attempt.  [w2] is the world the spawn step
    receives. *)
Lemma after_move_shape (w w' : World) (pm : Z) (r r' : Rand) (tr : list Event) :
  after_move w pm r = (w', r', tr) →
  ∃ w1 w2 acts,
    enemy_effect w w1 ∧ enemy_effect w1 w2
    ∧ (∀ j, ¬ In j (get_enemies w) → entities w1 !! j = entities w !! j)
    ∧ (∀ j, ¬ In j (get_q_enemies w1) → entities w2 !! j = entities w1 !! j)
    ∧ acts = map Act_E (get_enemies w) ++ map Act_Q (get_q_enemies w1)
    ∧ ((pm mod 10 = 0
        ∧ ∃ sx sy, tr = acts ++ [Spawn_try sx sy]
            ∧ ((is_solid_at w2 sx sy = false ∧ w' = add_entity (QEnemy sx sy) w2)
               ∨ (is_solid_at w2 sx sy = true ∧ w' = w2)))
       ∨ (pm mod 10 ≠ 0 ∧ tr = acts ∧ w' = w2)).
Proof.
  intros H. apply after_move_inv in H as (w1 & r1 & w2 & r2 & He & Hq & H).
  pose proof (enemies_pass_effect (get_enemies w) w r) as E1.
  pose proof (q_pass_effect (get_q_enemies w1) w1 pm r1) as E2.
  pose proof (λ j, enemies_pass_lookup_ne (get_enemies w) j w r) as L1.
  pose proof (λ j, q_pass_lookup_ne (get_q_enemies w1) j w1 pm r1) as L2.
  rewrite He in E1, L1. rewrite Hq in E2, L2. simpl in *.
  exists w1, w2, (map Act_E (get_enemies w) ++ map Act_Q (get_q_enemies w1)).
  do 5 (split; [done|]). unfold Q_SPAWN_INTERVAL in H.
  destruct (pm mod 10 =? 0) eqn:Hpm.
  - left. apply Z.eqb_eq in Hpm. split; [done|].
    destruct H as (sx & sy & Hs & ->). exists sx, sy. split; [done|].
    by apply spawn_step_inv in Hs.
  - right. apply Z.eqb_neq in Hpm. by destruct H as (-> & _ & ->).
Qed.

Lemma activation_not_spawn (es qs : list nat) (sx sy : Z) :
  ¬ In (Spawn_try sx sy) (map Act_E es ++ map Act_Q qs).
Proof.
  rewrite in_app_iff, !in_map_iff. intros [(i & [=] & _) | (i & [=] & _)].
Qed.

Lemma player_step_length (d : Z * Z) (w w1 : World) (moved : bool) :
  player_step d w = (w1, moved) → length (entities w1) = length (entities w).
Proof.
  intros H. apply player_step_inv in H. destruct moved.
  - destruct H as (p & _ & ->). apply set_pos_length.
  - destruct H as (-> & _). done.
Qed.

(** The spawn attempt as the trace and the entity list show it. *)
Lemma spawn_trace_rule (g g' : Game) (key : Z) (tr : list Event) :
  tick key g = Continue g' tr →
  ((∃ sx sy, In (Spawn_try sx sy) tr)
     ↔ player_moves g' = player_moves g + 1 ∧ player_moves g' mod 10 = 0)
  ∧ (length (entities (world g')) ≤ length (entities (world g)) + 1)%nat
  ∧ (length (entities (world g')) ≠ length (entities (world g)) →
     ∃ sx sy es,
       In (Spawn_try sx sy) tr
       ∧ entities (world g') = es ++ [QEnemy sx sy]
       ∧ length es = length (entities (world g))
       ∧ is_solid_at (with_entities (world g') es) sx sy = false).
Proof.
  intros Ht.
  apply tick_Continue_inv in Ht as [(_ & -> & ->) | (_ & Ht)].
  { simpl. split; [|split; [lia | done]].
    split; [intros (sx & sy & []) | lia]. }
  apply turn_inv in Ht as (w1 & moved & Hp & Hm).
  apply player_step_length in Hp. destruct moved.
  - destruct Hm as (w2 & r2 & Ha & ->). simpl.
    apply after_move_shape in Ha
      as (v1 & v2 & acts & E1 & E2 & _ & _ & -> & Hsp).
    pose proof (eff_length _ _ E1) as Hl1. pose proof (eff_length _ _ E2) as Hl2.
    destruct Hsp as [(Hpm & sx & sy & -> & Hs) | (Hpm & -> & ->)].
    + split; [|split].
      * split; [done|]. intros _. exists sx, sy.
        apply in_app_iff. right. by left.
      * destruct Hs as [[_ ->] | [_ ->]]; simpl; rewrite ?length_app; simpl; lia.
      * intros Hne. exists sx, sy, (entities v2).
        destruct Hs as [[Hs ->] | [_ ->]]; [|lia].
        split; [apply in_app_iff; right; by left|].
        split; [done|]. split; [lia|].
        unfold add_entity, with_entities. simpl. by destruct v2.
    + split; [|split; [lia | intros; lia]].
      split; [|tauto]. intros (sx & sy & Hin).
      by apply activation_not_spawn in Hin.
  - destruct Hm as [-> ->]. simpl. split; [|split; [lia | intros; lia]].
    split; [intros (sx & sy & []) | lia].
Qed.


(** The calls of a turn address old entities only, and the spawn attempt
    comes last. *)
Lemma turn_trace_shape (g g' : Game) (key : Z) (tr : list Event) :
  tick key g = Continue g' tr →
  (∀ i, In (Act_Q i) tr ∨ In (Act_E i) tr → (i < length (entities (world g)))%nat)
  ∧ (∀ i e, entities (world g') !! i = Some e →
            (length (entities (world g)) ≤ i)%nat →
            e = QEnemy (x e) (y e) ∧ ¬ In (Act_Q i) tr)
  ∧ (∃ acts, (tr = acts ∨ ∃ sx sy, tr = acts ++ [Spawn_try sx sy])
             ∧ ∀ sx sy, ¬ In (Spawn_try sx sy) acts).
Proof.
  intros Ht.
  apply tick_Continue_inv in Ht as [(_ & -> & ->) | (_ & Ht)].
  { simpl. split; [intros i [[]|[]]|]. split.
    - intros i e He Hi. apply lookup_lt_Some in He. lia.
    - exists []. split; [by left | intros ?? []]. }
  apply turn_inv in Ht as (w1 & moved & Hp & Hm).
  apply player_step_length in Hp. destruct moved.
  - destruct Hm as (w2 & r2 & Ha & ->). simpl.
    apply after_move_shape in Ha
      as (v1 & v2 & acts & E1 & E2 & _ & _ & -> & Hsp).
    pose proof (eff_length _ _ E1) as Hl1. pose proof (eff_length _ _ E2) as Hl2.
    assert (∀ i, In (Act_Q i) (map Act_E (get_enemies w1) ++ map Act_Q (get_q_enemies v1))
                 ∨ In (Act_E i) (map Act_E (get_enemies w1) ++ map Act_Q (get_q_enemies v1))
                 → (i < length (entities (world g)))%nat) as Hold.
    { intros i. rewrite !in_app_iff, !in_map_iff.
      intros [[(j & [=] & _) | (j & [= ->] & Hj)]
             | [(j & [= ->] & Hj) | (j & [=] & _)]];
        apply refs_where_lt in Hj; lia. }
    assert (∀ i, In (Act_Q i) tr ∨ In (Act_E i) tr
                 → (i < length (entities (world g)))%nat) as Hold'.
    { intros i Hi. apply Hold.
      destruct Hsp as [(_ & sx & sy & -> & _) | (_ & -> & _)]; [|done].
      rewrite !in_app_iff in Hi. rewrite !in_app_iff. simpl in Hi.
      destruct Hi as [[?|[[=]|[]]] | [?|[[=]|[]]]]; tauto. }
    split; [done|]. split.
    + intros i e He Hi. split; [|intros Hin; specialize (Hold' i (or_introl Hin)); lia].
      destruct Hsp as [(_ & sx & sy & _ & [[_ ->] | [_ ->]]) | (_ & _ & ->)].
      * simpl in He. apply lookup_app_Some in He as [He | [_ He]].
        { apply lookup_lt_Some in He. lia. }
        apply list_lookup_singleton_Some in He as [_ <-]. done.
      * apply lookup_lt_Some in He. lia.
      * apply lookup_lt_Some in He. lia.
    + exists (map Act_E (get_enemies w1) ++ map Act_Q (get_q_enemies v1)).
      split; [|intros; apply activation_not_spawn].
      destruct Hsp as [(_ & sx & sy & -> & _) | (_ & -> & _)]; eauto.
  - destruct Hm as [-> ->]. simpl. split; [intros i [[]|[]]|]. split.
    + intros i e He Hi. apply lookup_lt_Some in He. lia.
    + exists []. split; [by left | intros ?? []].
Qed.


(** *** The state a turn leaves behind *)

Lemma after_move_passes (w : World) (pm : Z) (r : Rand) :
  after_move w pm r
  = let acts := map Act_E (get_enemies w)
                ++ map Act_Q (get_q_enemies (enemies_pass (get_enemies w) w r).1) in
    if pm mod Q_SPAWN_INTERVAL =? 0
    then let '(w3, r3, (sx, sy)) := spawn_step (passes w pm r).1 (passes w pm r).2 in
         (w3, r3, acts ++ [Spawn_try sx sy])
    else ((passes w pm r).1, (passes w pm r).2, acts).
Proof.
  unfold after_move, passes.
  destruct (enemies_pass (get_enemies w) w r) as [w1 r1].
  destruct (q_pass (get_q_enemies w1) w1 pm r1) as [w2 r2]. done.
Qed.

Lemma spawn_step_eq (w : World) (r : Rand) :
  spawn_step w r
  = let sx := (randint 2 (GX - 4) r).1 in
    let r1 := (randint 2 (GX - 4) r).2 in
    let sy := (randint 1 (GY - 3) r1).1 in
    let r2 := (randint 1 (GY - 3) r1).2 in
    (if is_solid_at w sx sy then w else add_entity (QEnemy sx sy) w, r2, (sx, sy)).
Proof.
  unfold spawn_step. cbv zeta.
  destruct (randint 2 (GX - 4) r) as [sx r1]. cbn [fst snd].
  destruct (randint 1 (GY - 3) r1) as [sy r2]. cbn [fst snd].
  by destruct (is_solid_at w sx sy).
Qed.

Lemma passes_effect (w : World) (pm : Z) (r : Rand) :
  enemy_effect w (passes w pm r).1.
Proof.
  unfold passes.
  pose proof (enemies_pass_effect (get_enemies w) w r) as E1.
  destruct (enemies_pass (get_enemies w) w r) as [w1 r1].
  eapply enemy_effect_trans; [exact E1 | apply q_pass_effect].
Qed.

(** After a displacement: the world and the random source are those the
    two passes leave, followed, when the new count is a multiple of 10, by
    two draws for a cell, the solidity test of that cell and the addition
    of a pursuer on it if it is free. *)
Lemma moved_turn_state (g g' : Game) (key : Z) (tr : list Event) :
  tick key g = Continue g' tr →
  player_moves g' = player_moves g + 1 →
     let w2 := (passes (player_step (key_direction key g) (world g)).1
                        (player_moves g') (rand g)).1 in
     let r2 := (passes (player_step (key_direction key g) (world g)).1
                        (player_moves g') (rand g)).2 in
     let sx := (randint 2 (GX - 4) r2).1 in
     let r3 := (randint 2 (GX - 4) r2).2 in
     let sy := (randint 1 (GY - 3) r3).1 in
     let r4 := (randint 1 (GY - 3) r3).2 in
     if player_moves g' mod 10 =? 0
     then last tr = Some (Spawn_try sx sy) ∧ rand g' = r4
          ∧ world g' = (if is_solid_at w2 sx sy then w2
                        else add_entity (QEnemy sx sy) w2)
     else rand g' = r2 ∧ world g' = w2.
Proof.
  intros Ht Hpm.
  apply tick_Continue_inv in Ht as [(_ & -> & _) | (_ & Ht)];
    [simpl in Hpm; lia|].
  apply turn_inv in Ht as (w1 & moved & Hs & Hm). destruct moved.
  - destruct Hm as (w2 & r2 & Ha & ->). rewrite Hs. cbn [fst snd world rand player_moves].
    rewrite after_move_passes in Ha. cbv zeta in Ha. unfold Q_SPAWN_INTERVAL in Ha.
    destruct ((player_moves g + 1) mod 10 =? 0).
    + rewrite spawn_step_eq in Ha. cbv zeta in Ha. injection Ha as <- <- <-.
      rewrite last_snoc. done.
    + by injection Ha as <- <- <-.
  - destruct Hm as [-> _]. simpl in Hpm. lia.
Qed.

Lemma idle_turn_state (g g' : Game) (key : Z) (tr : list Event) :
  tick key g = Continue g' tr →
  player_moves g' ≠ player_moves g + 1 →
  rand g' = rand g ∧ entities (world g') = entities (world g).
Proof.
  intros Ht Hpm.
  apply tick_Continue_inv in Ht as [(_ & -> & _) | (_ & Ht)]; [done|].
  apply turn_inv in Ht as (w1 & moved & Hs & Hm). destruct moved.
  - by destruct Hm as (w2 & r2 & _ & ->).
  - destruct Hm as [-> _]. simpl. by apply player_step_inv in Hs as [-> _].
Qed.

(** C7: a spawn attempt is made exactly in the turns whose increment brings
    [player_moves] to a multiple of 10.  In such a turn the two passes are
    followed by two random draws, a column in 2..GX-4 and a row in 1..GY-3;
    the cell is tested with [is_solid_at] on the world the passes left, and
    a pursuer is appended on it exactly when it is not solid.  In a turn
    that increments to another count nothing is drawn and nothing is added,
    and without an increment the random source and the entities are
    untouched.  So a turn adds at most one entity, a Pursuer on a cell that
    was not solid. *)
Theorem spawn_attempt_rule (g g' : Game) (key : Z) (tr : list Event) :
  tick key g = Continue g' tr →
  ((∃ sx sy, In (Spawn_try sx sy) tr)
     ↔ player_moves g' = player_moves g + 1 ∧ player_moves g' mod 10 = 0)
  ∧ (length (entities (world g')) ≤ length (entities (world g)) + 1)%nat
  ∧ (length (entities (world g')) ≠ length (entities (world g)) →
     ∃ sx sy es,
       In (Spawn_try sx sy) tr
       ∧ entities (world g') = es ++ [QEnemy sx sy]
       ∧ length es = length (entities (world g))
       ∧ is_solid_at (with_entities (world g') es) sx sy = false)
  ∧ (player_moves g' = player_moves g + 1 →
     let w2 := (passes (player_step (key_direction key g) (world g)).1
                        (player_moves g') (rand g)).1 in
     let r2 := (passes (player_step (key_direction key g) (world g)).1
                        (player_moves g') (rand g)).2 in
     let sx := (randint 2 (GX - 4) r2).1 in
     let r3 := (randint 2 (GX - 4) r2).2 in
     let sy := (randint 1 (GY - 3) r3).1 in
     let r4 := (randint 1 (GY - 3) r3).2 in
     if player_moves g' mod 10 =? 0
     then last tr = Some (Spawn_try sx sy) ∧ rand g' = r4
          ∧ world g' = (if is_solid_at w2 sx sy then w2
                        else add_entity (QEnemy sx sy) w2)
     else rand g' = r2 ∧ world g' = w2)
  ∧ (player_moves g' ≠ player_moves g + 1 →
     rand g' = rand g ∧ entities (world g') = entities (world g)).
Proof.
  intros Ht.
  destruct (spawn_trace_rule g g' key tr Ht) as (H1 & H2 & H3).
  split; [done|]. split; [done|]. split; [done|]. split.
  - by apply (moved_turn_state g g' key tr).
  - by apply (idle_turn_state g g' key tr).
Qed.

Lemma spawn_attempt_rule_witness :
  ((∃ sx sy, In (Spawn_try sx sy) [Spawn_try 5 4])
     ↔ player_moves (after_tick key_d before_spawn) = player_moves before_spawn + 1 ∧ player_moves (after_tick key_d before_spawn) mod 10 = 0)
  ∧ (length (entities (world (after_tick key_d before_spawn))) ≤ length (entities (world before_spawn)) + 1)%nat
  ∧ (length (entities (world (after_tick key_d before_spawn))) ≠ length (entities (world before_spawn)) →
     ∃ sx sy es,
       In (Spawn_try sx sy) [Spawn_try 5 4]
       ∧ entities (world (after_tick key_d before_spawn)) = es ++ [QEnemy sx sy]
       ∧ length es = length (entities (world before_spawn))
       ∧ is_solid_at (with_entities (world (after_tick key_d before_spawn)) es) sx sy = false)
  ∧ (player_moves (after_tick key_d before_spawn) = player_moves before_spawn + 1 →
     let w2 := (passes (player_step (key_direction key_d before_spawn) (world before_spawn)).1
                        (player_moves (after_tick key_d before_spawn)) (rand before_spawn)).1 in
     let r2 := (passes (player_step (key_direction key_d before_spawn) (world before_spawn)).1
                        (player_moves (after_tick key_d before_spawn)) (rand before_spawn)).2 in
     let sx := (randint 2 (GX - 4) r2).1 in
     let r3 := (randint 2 (GX - 4) r2).2 in
     let sy := (randint 1 (GY - 3) r3).1 in
     let r4 := (randint 1 (GY - 3) r3).2 in
     if player_moves (after_tick key_d before_spawn) mod 10 =? 0
     then last [Spawn_try 5 4] = Some (Spawn_try sx sy) ∧ rand (after_tick key_d before_spawn) = r4
          ∧ world (after_tick key_d before_spawn) = (if is_solid_at w2 sx sy then w2
                        else add_entity (QEnemy sx sy) w2)
     else rand (after_tick key_d before_spawn) = r2 ∧ world (after_tick key_d before_spawn) = w2)
  ∧ (player_moves (after_tick key_d before_spawn) ≠ player_moves before_spawn + 1 →
     rand (after_tick key_d before_spawn) = rand before_spawn ∧ entities (world (after_tick key_d before_spawn)) = entities (world before_spawn)).
Proof.
  apply (spawn_attempt_rule before_spawn (after_tick key_d before_spawn)
           key_d [Spawn_try 5 4]).
  vm_compute. reflexivity.
Defined.

(** C8: a Pursuer spawned in a turn takes no part in that turn.  Every
    activation addresses an entity that was in the world before the turn,
    and the spawn attempt is the last call.  On the state: when a turn adds
    an entity, both passes have run on the old entities only, and the
    resulting world is the world they left with the new Pursuer appended on
    the drawn cell; the newcomer has not moved, and [game_over] and [win]
    are as the passes left them, however close to the Player it stands. *)
Theorem spawned_pursuer_waits_a_turn (g g' : Game) (key : Z) (tr : list Event) :
  tick key g = Continue g' tr →
  (∀ i, In (Act_Q i) tr ∨ In (Act_E i) tr → (i < length (entities (world g)))%nat)
  ∧ (∀ i e, entities (world g') !! i = Some e →
            (length (entities (world g)) ≤ i)%nat →
            e = QEnemy (x e) (y e) ∧ ¬ In (Act_Q i) tr)
  ∧ (∃ acts, (tr = acts ∨ ∃ sx sy, tr = acts ++ [Spawn_try sx sy])
             ∧ ∀ sx sy, ¬ In (Spawn_try sx sy) acts)
  ∧ (length (entities (world g')) ≠ length (entities (world g)) →
     let w2 := (passes (player_step (key_direction key g) (world g)).1
                        (player_moves g') (rand g)).1 in
     let r2 := (passes (player_step (key_direction key g) (world g)).1
                        (player_moves g') (rand g)).2 in
     let sx := (randint 2 (GX - 4) r2).1 in
     let r3 := (randint 2 (GX - 4) r2).2 in
     let sy := (randint 1 (GY - 3) r3).1 in
     let r4 := (randint 1 (GY - 3) r3).2 in
     player_moves g' = player_moves g + 1
     ∧ length (entities w2) = length (entities (world g))
     ∧ world g' = add_entity (QEnemy sx sy) w2
     ∧ entities (world g') !! length (entities (world g)) = Some (QEnemy sx sy)
     ∧ game_over (world g') = game_over w2
     ∧ win (world g') = win w2).
Proof.
  intros Ht.
  destruct (turn_trace_shape g g' key tr Ht) as (H1 & H2 & H3).
  split; [done|]. split; [done|]. split; [done|].
  intros Hlen.
  destruct (decide (player_moves g' = player_moves g + 1)) as [Hpm|Hpm];
    [|apply (idle_turn_state g g' key tr Ht) in Hpm as [_ Hes]; congruence].
  pose proof (moved_turn_state g g' key tr Ht Hpm) as Hst. cbv zeta in *.
  set (w1 := (player_step (key_direction key g) (world g)).1) in *.
  pose proof (passes_effect w1 (player_moves g') (rand g)) as E.
  apply eff_length in E.
  assert (length (entities w1) = length (entities (world g))) as Hl1.
  { subst w1. destruct (player_step _ _) as [v m] eqn:Hs.
    by apply player_step_length in Hs. }
  destruct (player_moves g' mod 10 =? 0).
  - destruct Hst as (_ & _ & Hw).
    destruct (is_solid_at _ _ _); [rewrite Hw in Hlen; congruence|].
    split; [done|]. split; [congruence|]. split; [done|].
    rewrite Hw. split; [|done]. simpl.
    rewrite lookup_app_r by lia.
    replace (length (entities (world g)) - _)%nat with 0%nat by lia. done.
  - destruct Hst as [_ Hw]. rewrite Hw in Hlen. congruence.
Qed.

Lemma spawned_pursuer_waits_a_turn_witness :
  (∀ i, In (Act_Q i) [Act_E 1; Act_Q 2; Spawn_try 5 4] ∨ In (Act_E i) [Act_E 1; Act_Q 2; Spawn_try 5 4] → (i < length (entities (world crowded)))%nat)
  ∧ (∀ i e, entities (world (after_tick key_d crowded)) !! i = Some e →
            (length (entities (world crowded)) ≤ i)%nat →
            e = QEnemy (x e) (y e) ∧ ¬ In (Act_Q i) [Act_E 1; Act_Q 2; Spawn_try 5 4])
  ∧ (∃ acts, ([Act_E 1; Act_Q 2; Spawn_try 5 4] = acts ∨ ∃ sx sy, [Act_E 1; Act_Q 2; Spawn_try 5 4] = acts ++ [Spawn_try sx sy])
             ∧ ∀ sx sy, ¬ In (Spawn_try sx sy) acts)
  ∧ (length (entities (world (after_tick key_d crowded))) ≠ length (entities (world crowded)) →
     let w2 := (passes (player_step (key_direction key_d crowded) (world crowded)).1
                        (player_moves (after_tick key_d crowded)) (rand crowded)).1 in
     let r2 := (passes (player_step (key_direction key_d crowded) (world crowded)).1
                        (player_moves (after_tick key_d crowded)) (rand crowded)).2 in
     let sx := (randint 2 (GX - 4) r2).1 in
     let r3 := (randint 2 (GX - 4) r2).2 in
     let sy := (randint 1 (GY - 3) r3).1 in
     let r4 := (randint 1 (GY - 3) r3).2 in
     player_moves (after_tick key_d crowded) = player_moves crowded + 1
     ∧ length (entities w2) = length (entities (world crowded))
     ∧ world (after_tick key_d crowded) = add_entity (QEnemy sx sy) w2
     ∧ entities (world (after_tick key_d crowded)) !! length (entities (world crowded)) = Some (QEnemy sx sy)
     ∧ game_over (world (after_tick key_d crowded)) = game_over w2
     ∧ win (world (after_tick key_d crowded)) = win w2).
Proof.
  apply (spawned_pursuer_waits_a_turn crowded (after_tick key_d crowded)
           key_d [Act_E 1; Act_Q 2; Spawn_try 5 4]).
  vm_compute. reflexivity.
Defined.


(** ** The move counter *)

(** Enemy logic and spawning leave every entity that is not an enemy where
    it is. *)
Lemma after_move_keeps (w w' : World) (pm : Z) (r r' : Rand) (tr : list Event)
    (j : nat) (e : Entity) :
  after_move w pm r = (w', r', tr) →
  entities w !! j = Some e → ¬ is_enemy e →
  entities w' !! j = Some e.
Proof.
  intros Ha He Hne.
  apply after_move_shape in Ha as (v1 & v2 & acts & _ & _ & L1 & L2 & _ & Hsp).
  assert (entities v1 !! j = Some e) as He1.
  { rewrite L1; [done|]. unfold get_enemies. rewrite In_refs_where.
    intros (e' & He' & Hc). apply String.eqb_eq in Hc.
    apply Hne. left. congruence. }
  assert (entities v2 !! j = Some e) as He2.
  { rewrite L2; [done|]. unfold get_q_enemies. rewrite In_refs_where.
    intros (e' & He' & Hc). apply String.eqb_eq in Hc.
    apply Hne. right. congruence. }
  destruct Hsp as [(_ & sx & sy & _ & [[_ ->] | [_ ->]]) | (_ & _ & ->)];
    [|done..].
  simpl. by apply lookup_app_l_Some.
Qed.

Lemma player_not_enemy (p : Entity) : char p = "@"%string → ¬ is_enemy p.
Proof. intros Hp [H | H]; rewrite Hp in H; discriminate. Qed.

Lemma nonzero_displaces (d : Z * Z) (px py : Z) :
  is_zero d = false → (px + d.1, py + d.2) ≠ (px, py).
Proof.
  unfold is_zero. intros Hz [= H1 H2].
  apply andb_false_iff in Hz as [Hz | Hz]; apply Z.eqb_neq in Hz; lia.
Qed.

(** C4: over one processed turn [player_moves] grows by 0 or by 1, and it
    grows exactly when the Player's coordinates after the turn differ from
    those before it. *)
Theorem player_moves_counts_displacements
    (g g' : Game) (key : Z) (tr : list Event) :
  player_bound (world g) →
  tick key g = Continue g' tr →
  (player_moves g' = player_moves g ∨ player_moves g' = player_moves g + 1)
  ∧ (player_moves g' = player_moves g + 1
     ↔ player_pos (world g') ≠ player_pos (world g)).
Proof.
  intros (p & Hp & Hc) Ht.
  apply tick_Continue_inv in Ht as [(_ & -> & _) | (Hz & Ht)].
  { simpl. split; [by left|]. split; [lia | done]. }
  apply turn_inv in Ht as (w1 & moved & Hs & Hm).
  apply player_step_inv in Hs. destruct moved.
  - destruct Hs as (p' & Hp' & ->). destruct Hm as (w2 & r2 & Ha & ->). simpl.
    assert (p' = p) as -> by congruence.
    split; [by right|]. split; [intros _|done].
    set (d := key_direction key g) in *.
    assert (entities w2 !! player
            = Some (mkEntity (x p + d.1) (y p + d.2) (char p) (solid p))) as Hw2.
    { eapply after_move_keeps; [exact Ha | by apply set_pos_lookup_eq |].
      by apply player_not_enemy. }
    unfold player_pos. rewrite Hw2, Hp. simpl. intros [= H1 H2].
    eapply nonzero_displaces; [exact Hz | by f_equal].
  - destruct Hs as (Hes & _). destruct Hm as [-> _]. simpl.
    split; [by left|]. unfold player_pos. rewrite Hes. split; [lia | done].
Qed.

Lemma player_moves_counts_displacements_witness :
  (10 = player_moves before_spawn ∨ 10 = player_moves before_spawn + 1)
  ∧ (10 = player_moves before_spawn + 1
     ↔ player_pos (mkWorld GX GY [mkEntity 2 1 "@" true; QEnemy 5 4] false false)
       ≠ player_pos (world before_spawn)).
Proof.
  apply (player_moves_counts_displacements before_spawn
           (mkGame (mkWorld GX GY [mkEntity 2 1 "@" true; QEnemy 5 4] false false)
                   (0, 0) 10 (mkRand (fun _ => 3%nat) 2))
           key_d [Spawn_try 5 4]).
  - exists (mkEntity 1 1 "@" true). split; reflexivity.
  - reflexivity.
Defined.

(** The binding of [player] survives every iteration. *)
Lemma tick_player_bound (key : Z) (g g' : Game) (tr : list Event) :
  player_bound (world g) → tick key g = Continue g' tr → player_bound (world g').
Proof.
  intros (p & Hp & Hc) Ht.
  apply tick_Continue_inv in Ht as [(_ & -> & _) | (_ & Ht)]; [by exists p|].
  apply turn_inv in Ht as (w1 & moved & Hs & Hm).
  apply player_step_inv in Hs. destruct moved.
  - destruct Hs as (p' & Hp' & ->). destruct Hm as (w2 & r2 & Ha & ->). simpl.
    assert (p' = p) as -> by congruence.
    set (d := key_direction key g) in *.
    exists (mkEntity (x p + d.1) (y p + d.2) (char p) (solid p)).
    split; [|exact Hc].
    eapply after_move_keeps; [exact Ha | by apply set_pos_lookup_eq |].
    by apply player_not_enemy.
  - destruct Hs as (Hes & _). destruct Hm as [-> _]. simpl.
    exists p. by rewrite Hes.
Qed.

Lemma Reachable_player_bound (g : Game) : Reachable g → player_bound (world g).
Proof.
  induction 1 as [tp | g g' key tr _ IH _ Ht].
  - by exists (mkEntity 1 (GY - 2) "@" true).
  - by eapply tick_player_bound.
Qed.

(** ** Enemies never share a cell *)

Section Stacking.

Implicit Types (w : World) (r : Rand) (i j : nat) (e : Entity).

(** A cell that [is_solid_at] reports free holds no solid entity. *)
Lemma free_cell_no_solid w cx cy j e :
  is_solid_at w cx cy = false →
  entities w !! j = Some e → solid e = true → pos e ≠ (cx, cy).
Proof.
  unfold is_solid_at. intros Hs He Hsol [= Hx Hy].
  destruct (_ || _) in Hs; [discriminate|].
  assert (existsb (λ e, solid e && at_cell cx cy e) (entities w) = true)
    as Hex; [|congruence].
  apply existsb_exists. exists e. split.
  - apply list_elem_of_In. by eapply list_elem_of_lookup_2.
  - unfold at_cell. rewrite Hsol, Hx, Hy, !Z.eqb_refl. done.
Qed.

Lemma tidy_same_entities w w' : entities w' = entities w → tidy w → tidy w'.
Proof.
  unfold tidy, enemies_solid, stacked. intros ->. done.
Qed.

(** Moving entity [i] keeps the enemies apart when the destination was
    free, or when [i] is not an enemy at all. *)
Lemma set_pos_tidy i nx ny w :
  tidy w →
  (∀ e, entities w !! i = Some e → is_enemy e → is_solid_at w nx ny = false) →
  tidy (set_pos i nx ny w).
Proof.
  intros [Hsol Hns] Hfree.
  destruct (entities w !! i) as [e|] eqn:He;
    [|unfold set_pos; by rewrite He].
  pose proof (set_pos_lookup_eq i nx ny w e He) as Hi.
  assert (∀ j e', entities (set_pos i nx ny w) !! j = Some e' →
            (j ≠ i ∧ entities w !! j = Some e')
            ∨ (j = i ∧ e' = mkEntity nx ny (char e) (solid e))) as Hcase.
  { intros j e' Hj. destruct (decide (i = j)) as [<-|Hne].
    - right. split; [done|]. congruence.
    - left. split; [done|]. by rewrite set_pos_lookup_ne in Hj. }
  split.
  - intros j e' Hj Hen. apply Hcase in Hj as [[_ Hj] | [-> ->]].
    + by eapply Hsol.
    + simpl. by apply (Hsol i e).
  - intros (a & b & ea & eb & Hab & Ha & Hb & Hea & Heb & Hpos).
    apply Hcase in Ha as [[Hai Ha] | [-> ->]];
      apply Hcase in Hb as [[Hbi Hb] | [-> ->]]; try done.
    + apply Hns. by exists a, b, ea, eb.
    + eapply (free_cell_no_solid w nx ny a ea); eauto.
    + eapply (free_cell_no_solid w nx ny b eb); eauto.
Qed.

Lemma add_entity_tidy sx sy w :
  tidy w → is_solid_at w sx sy = false → tidy (add_entity (QEnemy sx sy) w).
Proof.
  intros [Hsol Hns] Hfree.
  assert (∀ j e', entities (add_entity (QEnemy sx sy) w) !! j = Some e' →
            entities w !! j = Some e'
            ∨ (j = length (entities w) ∧ e' = QEnemy sx sy)) as Hcase.
  { intros j e' Hj. simpl in Hj.
    apply lookup_app_Some in Hj as [Hj | [Hge Hj]]; [by left|].
    apply list_lookup_singleton_Some in Hj as [Hj <-].
    right. split; [lia | done]. }
  split.
  - intros j e' Hj Hen. apply Hcase in Hj as [Hj | [-> ->]]; [|done].
    by eapply Hsol.
  - intros (a & b & ea & eb & Hab & Ha & Hb & Hea & Heb & Hpos).
    apply Hcase in Ha as [Ha | [-> ->]];
      apply Hcase in Hb as [Hb | [-> ->]]; try done.
    + apply Hns. by exists a, b, ea, eb.
    + eapply (free_cell_no_solid w sx sy a ea); eauto.
    + eapply (free_cell_no_solid w sx sy b eb); eauto.
Qed.

Lemma Enemy_take_turn_tidy i w r : tidy w → tidy (Enemy_take_turn i w r).1.
Proof.
  intros Hw. unfold Enemy_take_turn.
  destruct (entities w !! i) as [e|]; [|done].
  destruct (choice MOVES r) as [d r'].
  destruct (is_solid_at w (x e + d.1) (y e + d.2)) eqn:Hs; [done|].
  destruct (get_player w) as [pl|];
    [destruct (_ && _)|]; simpl;
    solve [ done | by apply set_pos_tidy ].
Qed.

Lemma QEnemy_take_turn_tidy i w pm r :
  tidy w → tidy (QEnemy_take_turn i w pm r).1.
Proof.
  intros Hw. unfold QEnemy_take_turn.
  destruct (negb (pm mod Q_MOVE_INTERVAL =? 0)); [done|].
  destruct (entities w !! i) as [e|]; [|done].
  destruct (choice MOVES r) as [d r'].
  set (w1 := if negb (is_solid_at w (x e + d.1) (y e + d.2))
             then set_pos i (x e + d.1) (y e + d.2) w else w).
  assert (tidy w1) as Hw1.
  { subst w1. destruct (is_solid_at w (x e + d.1) (y e + d.2)) eqn:Hs; simpl;
      [done | by apply set_pos_tidy]. }
  destruct (get_player w1) as [pl|];
    [destruct (entities w1 !! i) as [e1|];
     [destruct (manhattan e1 pl <=? Q_RANGE)|]|]; done.
Qed.

Lemma enemies_pass_tidy refs w r : tidy w → tidy (enemies_pass refs w r).1.
Proof.
  revert w r. induction refs as [|i rest IH]; intros w r Hw; simpl; [done|].
  pose proof (Enemy_take_turn_tidy i w r Hw) as Hi.
  destruct (Enemy_take_turn i w r) as [w' r']. by apply IH.
Qed.

Lemma q_pass_tidy refs w pm r : tidy w → tidy (q_pass refs w pm r).1.
Proof.
  revert w r. induction refs as [|i rest IH]; intros w r Hw; simpl; [done|].
  pose proof (QEnemy_take_turn_tidy i w pm r Hw) as Hi.
  destruct (QEnemy_take_turn i w pm r) as [w' r']. by apply IH.
Qed.

Lemma after_move_tidy w w' pm r r' tr :
  after_move w pm r = (w', r', tr) → tidy w → tidy w'.
Proof.
  intros Ha Hw. apply after_move_inv in Ha as (w1 & r1 & w2 & r2 & He & Hq & H).
  pose proof (enemies_pass_tidy (get_enemies w) w r Hw) as H1.
  rewrite He in H1. simpl in H1.
  pose proof (q_pass_tidy (get_q_enemies w1) w1 pm r1 H1) as H2.
  rewrite Hq in H2. simpl in *.
  destruct (pm mod Q_SPAWN_INTERVAL =? 0).
  - destruct H as (sx & sy & Hs & _).
    apply spawn_step_inv in Hs as [[Hs ->] | [_ ->]]; [|done].
    by apply add_entity_tidy.
  - by destruct H as (-> & _).
Qed.

Lemma player_step_tidy d w w1 moved :
  player_step d w = (w1, moved) → player_bound w → tidy w → tidy w1.
Proof.
  intros Hs (p & Hp & Hc) Hw. apply player_step_inv in Hs. destruct moved.
  - destruct Hs as (p' & Hp' & ->). apply set_pos_tidy; [done|].
    intros e He Hen. exfalso.
    apply (player_not_enemy p Hc). congruence.
  - destruct Hs as (Hes & _). by eapply tidy_same_entities.
Qed.

Lemma tick_tidy key (g g' : Game) tr :
  tick key g = Continue g' tr →
  player_bound (world g) → tidy (world g) → tidy (world g').
Proof.
  intros Ht Hb Hw.
  apply tick_Continue_inv in Ht as [(_ & -> & _) | (_ & Ht)]; [done|].
  apply turn_inv in Ht as (w1 & moved & Hs & Hm).
  apply player_step_tidy in Hs; [|done..]. destruct moved.
  - destruct Hm as (w2 & r2 & Ha & ->). simpl. by eapply after_move_tidy.
  - by destruct Hm as [-> _].
Qed.

End Stacking.

(** In the world [main] builds, the enemies are the three roamers. *)
Lemma initial_enemies (i : nat) (e : Entity) :
  entities initial_world !! i = Some e → is_enemy e →
  (i = 1%nat ∧ e = Enemy 10 10) ∨ (i = 2%nat ∧ e = Enemy 18 9)
  ∨ (i = 3%nat ∧ e = Enemy 24 10).
Proof.
  intros He Hen.
  do 37 (destruct i as [|i];
         [vm_compute in He; injection He as <-;
          first [ by auto | destruct Hen as [[=] | [=]] ] |]).
  vm_compute in He. discriminate.
Qed.

Lemma initial_world_tidy : tidy initial_world.
Proof.
  split.
  - intros i e He Hen.
    by destruct (initial_enemies i e He Hen) as [[_ ->] | [[_ ->] | [_ ->]]].
  - intros (i & j & ei & ej & Hij & Hi & Hj & Hei & Hej & Hpos).
    destruct (initial_enemies i ei Hi Hei) as [[-> ->] | [[-> ->] | [-> ->]]];
      destruct (initial_enemies j ej Hj Hej) as [[-> ->] | [[-> ->] | [-> ->]]];
      done.
Qed.

Lemma Reachable_tidy (g : Game) : Reachable g → tidy (world g).
Proof.
  induction 1 as [tp | g g' key tr Hg IH _ Ht].
  - apply initial_world_tidy.
  - eapply tick_tidy; [exact Ht | by apply Reachable_player_bound | done].
Qed.

Lemma Reachable_run (keys : list Z) (g : Game) :
  Reachable g → Reachable (run keys g).
Proof.
  revert g. induction keys as [|k ks IH]; intros g Hg; simpl; [done|].
  destruct (running g) eqn:Hr; [|done].
  destruct (tick k g) as [g' tr| |] eqn:Ht; [|done..].
  apply IH. by eapply reach_tick.
Qed.

(** C3, as the code has it: enemy-enemy stacking is impossible.  In every
    reachable state all enemies are solid and stand on pairwise distinct
    cells, and whatever the random draws, no turn leaves two enemies on one
    cell: the solidity test that guards every relocation and the spawn
    rejects a cell that holds an enemy. *)
Theorem enemies_never_stack (g g' : Game) (key : Z) (tr : list Event) :
  Reachable g →
  tick key g = Continue g' tr →
  ¬ stacked (world g) ∧ enemies_solid (world g') ∧ ¬ stacked (world g').
Proof.
  intros Hg Ht. pose proof (Reachable_tidy g Hg) as Hw.
  pose proof (tick_tidy key g g' tr Ht (Reachable_player_bound g Hg) Hw) as Hw'.
  destruct Hw, Hw'. done.
Qed.

Lemma enemies_never_stack_witness :
  ¬ stacked (world (initial_game ambush_tape))
  ∧ enemies_solid (world (run [key_d] (initial_game ambush_tape)))
  ∧ ¬ stacked (world (run [key_d] (initial_game ambush_tape))).
Proof.
  apply (enemies_never_stack (initial_game ambush_tape)
           (run [key_d] (initial_game ambush_tape)) key_d
           [Act_E 1; Act_E 2; Act_E 3]).
  - apply reach_init.
  - vm_compute. reflexivity.
Defined.

(** C3 as stated does not hold: no reachable state, input and random tape
    lead to a turn that leaves two enemies on the same cell. *)
Lemma stacking_is_unreachable :
  ¬ ∃ (g g' : Game) (key : Z) (tr : list Event),
      Reachable g ∧ tick key g = Continue g' tr ∧ stacked (world g').
Proof.
  intros (g & g' & key & tr & Hg & Ht & Hst).
  pose proof (Reachable_tidy g Hg) as Hw.
  destruct (tick_tidy key g g' tr Ht (Reachable_player_bound g Hg) Hw) as [_ Hns].
  by apply Hns.
Qed.

(** ** Scenario A *)

(** C2, as the code has it: eight moves to the right end in Won with the
    Player on (8,1), the cell left of the Goal; the winning move sets [win]
    and does not displace the Player, so [player_moves] stops at 7. *)
Theorem scenario_A_outcome (tp : nat → nat) :
  status (world (run (replicate 8 key_d) (scenario_A tp))) = Won
  ∧ player_pos (world (run (replicate 8 key_d) (scenario_A tp))) = Some (8, 1)
  ∧ player_moves (run (replicate 8 key_d) (scenario_A tp)) = 7.
Proof. vm_compute. done. Qed.

(** C2 as stated does not hold: after the eight moves the Player is not on
    (9,1). *)
Lemma scenario_A_player_not_on_goal :
  ¬ (status (world (run (replicate 8 key_d) (scenario_A stay_tape))) = Won
     ∧ player_pos (world (run (replicate 8 key_d) (scenario_A stay_tape)))
       = Some (9, 1)).
Proof. vm_compute. intros [_ [=]]. Qed.

(** ** Roamer against the Player's cell *)

(** A destination on the cell of a solid Player is caught by the solidity
    test, before the comparison with the Player's position is reached. *)
Lemma Enemy_take_turn_solid_player (self : nat) (w : World) (r : Rand) (e p : Entity) :
  entities w !! self = Some e →
  get_player w = Some p → solid p = true →
  (x e + (choice MOVES r).1.1, y e + (choice MOVES r).1.2) = pos p →
  Enemy_take_turn self w r = (w, (choice MOVES r).2).
Proof.
  intros He Hp Hsol. unfold Enemy_take_turn. rewrite He.
  destruct (choice MOVES r) as [d r']. cbn [fst snd]. intros [= Hx Hy].
  assert (is_solid_at w (x e + d.1) (y e + d.2) = true) as ->; [|done].
  unfold is_solid_at. destruct (_ || _); [done|].
  apply existsb_exists. exists p. split.
  - unfold get_player in Hp. by apply find_some in Hp as [Hin _].
  - unfold at_cell. rewrite Hsol, Hx, Hy, !Z.eqb_refl. done.
Qed.

(** C1 fails on a state of the session [main] sets up.  After six moves to
    the right the first roamer stands on (9,10); the seventh move takes the
    Player to (8,10), the roamer then draws "left", so its destination is
    the Player's cell, and the activation returns the world unchanged:
    [game_over] stays false and the game goes on. *)
Theorem roamer_on_player_cell_not_lethal :
  Reachable (run (replicate 6 key_d) (initial_game ambush_tape))
  ∧ (let g := run (replicate 6 key_d) (initial_game ambush_tape) in
     let w := (player_step (1, 0) (world g)).1 in
     entities w !! 1%nat = Some (Enemy 9 10)
     ∧ get_player w = Some (mkEntity 8 10 "@" true)
     ∧ (choice MOVES (rand g)).1 = (-1, 0)
     ∧ (Enemy_take_turn 1 w (rand g)).1 = w
     ∧ game_over (Enemy_take_turn 1 w (rand g)).1 = false)
  ∧ status (world (run (replicate 7 key_d) (initial_game ambush_tape))) = Playing.
Proof.
  split; [apply Reachable_run, reach_init|].
  vm_compute. done.
Qed.


(** * Further properties of the world and the loop *)

(** ** Spatial queries *)

Lemma in_grid_test (w : World) (cx cy : Z) :
  (cx <? 0) || (cx >=? width w) || (cy <? 0) || (cy >=? height w) = false
  ↔ in_grid w cx cy.
Proof.
  unfold in_grid. rewrite !orb_false_iff, !Z.ltb_ge, !Z.geb_leb, !Z.leb_gt. lia.
Qed.

(** [is_solid_at] answers true exactly for the cells outside the grid and
    the cells that hold a solid entity. *)
Theorem is_solid_at_spec (w : World) (cx cy : Z) :
  is_solid_at w cx cy = true
  ↔ ¬ in_grid w cx cy ∨ ∃ e, In e (entities w) ∧ solid e = true ∧ pos e = (cx, cy).
Proof.
  unfold is_solid_at.
  destruct (_ || _) eqn:Hb.
  - split; [intros _; left | done].
    rewrite <- in_grid_test. by rewrite Hb.
  - apply in_grid_test in Hb. rewrite existsb_exists. split.
    + intros (e & Hin & He). right. exists e.
      apply andb_true_iff in He as [Hs Hc]. unfold at_cell in Hc.
      apply andb_true_iff in Hc as [Hx Hy]. apply Z.eqb_eq in Hx, Hy.
      unfold pos. by rewrite Hx, Hy.
    + intros [Hout | (e & Hin & Hs & [= Hx Hy])]; [done|].
      exists e. split; [done|]. unfold at_cell.
      by rewrite Hs, Hx, Hy, !Z.eqb_refl.
Qed.

Lemma free_cell_in_grid (w : World) (cx cy : Z) :
  is_solid_at w cx cy = false → in_grid w cx cy.
Proof.
  unfold is_solid_at. destruct (_ || _) eqn:Hb; [done|].
  intros _. by apply in_grid_test.
Qed.

Lemma at_cell_pos (cx cy : Z) (e : Entity) :
  at_cell cx cy e = true ↔ pos e = (cx, cy).
Proof.
  unfold at_cell, pos. rewrite andb_true_iff, !Z.eqb_eq. split.
  - by intros [-> ->].
  - by intros [= -> ->].
Qed.

Lemma find_first {A} (f : A → bool) (l : list A) (a : A) :
  List.find f l = Some a
  ↔ ∃ i, l !! i = Some a ∧ f a = true
         ∧ ∀ j b, (j < i)%nat → l !! j = Some b → f b = false.
Proof.
  induction l as [|c l IH]; simpl.
  - split; [done | by intros (i & Hi & _)].
  - destruct (f c) eqn:Hc.
    + split.
      * intros [= ->]. exists 0%nat. repeat split; [done|]. intros; lia.
      * intros ([|i] & Hi & Ha & Hlt); [by injection Hi as ->|].
        specialize (Hlt 0%nat c). rewrite Hc in Hlt.
        discriminate Hlt; [lia | done].
    + rewrite IH. split.
      * intros (i & Hi & Ha & Hlt). exists (S i). repeat split; [done..|].
        intros [|j] b Hj Hb; [by injection Hb as <-|].
        apply (Hlt j); [lia | done].
      * intros ([|i] & Hi & Ha & Hlt).
        { injection Hi as ->. congruence. }
        exists i. repeat split; [done..|].
        intros j b Hj Hb. apply (Hlt (S j)); [lia | done].
Qed.

(** [get_entity_at] returns the first entity of the list that stands on
    the cell: an entity further down the list on the same cell is never
    returned. *)
Theorem get_entity_at_first (w : World) (cx cy : Z) (e : Entity) :
  get_entity_at w cx cy = Some e
  ↔ ∃ i, entities w !! i = Some e ∧ pos e = (cx, cy)
         ∧ ∀ j e', (j < i)%nat → entities w !! j = Some e' → pos e' ≠ (cx, cy).
Proof.
  unfold get_entity_at. rewrite find_first.
  split; intros (i & Hi & Hc & Hlt); exists i; (split; [done|]).
  - split; [by apply at_cell_pos|].
    intros j e' Hj He' Hpos. apply at_cell_pos in Hpos.
    rewrite (Hlt j e' Hj He') in Hpos. discriminate.
  - split; [by apply at_cell_pos|].
    intros j b Hj Hb. destruct (at_cell cx cy b) eqn:Hbc; [|done].
    apply at_cell_pos in Hbc. by destruct (Hlt j b Hj Hb).
Qed.

(** [get_entity_at] returns [None] exactly for the cells no entity stands
    on. *)
Theorem get_entity_at_none (w : World) (cx cy : Z) :
  get_entity_at w cx cy = None ↔ ∀ e, In e (entities w) → pos e ≠ (cx, cy).
Proof.
  unfold get_entity_at. split.
  - intros Hn e Hin Hpos. apply at_cell_pos in Hpos.
    pose proof (find_none _ _ Hn e Hin) as Hf. simpl in Hf. congruence.
  - intros Hall. destruct (List.find _ _) as [e|] eqn:Hf; [|done].
    apply find_some in Hf as [Hin Hc]. apply at_cell_pos in Hc.
    by destruct (Hall e Hin).
Qed.

(** Adding an entity never hides the occupant of a cell and never frees a
    cell: the newcomer is found only on a cell that was empty, and the
    solid cells are the old ones plus, for a solid newcomer inside the
    grid, its own. *)
Theorem add_entity_queries (e : Entity) (w : World) (cx cy : Z) :
  get_entity_at (add_entity e w) cx cy
    = match get_entity_at w cx cy with
      | Some e' => Some e'
      | None => if at_cell cx cy e then Some e else None
      end
  ∧ is_solid_at (add_entity e w) cx cy
    = is_solid_at w cx cy || (solid e && at_cell cx cy e).
Proof.
  split.
  - unfold get_entity_at, add_entity. simpl.
    induction (entities w) as [|c l IH]; simpl.
    + by destruct (at_cell cx cy e).
    + by destruct (at_cell cx cy c).
  - unfold is_solid_at, add_entity. simpl.
    destruct (_ || _); [done|].
    rewrite existsb_app. simpl. by rewrite orb_false_r.
Qed.

(** ** Invariants of the loop *)

(** A property of worlds that survives a relocation to a free cell, the
    spawn of a pursuer on a free cell and a change of the flags survives
    everything that follows a player's displacement. *)
Section Preservation.

Variable P : World → Prop.
Hypothesis P_game_over : ∀ w, P w → P (set_game_over w).
Hypothesis P_set_pos :
  ∀ i nx ny w, P w → is_solid_at w nx ny = false → P (set_pos i nx ny w).
Hypothesis P_spawn :
  ∀ sx sy w, P w → is_solid_at w sx sy = false → P (add_entity (QEnemy sx sy) w).

Lemma Enemy_take_turn_preserves (i : nat) (w : World) (r : Rand) :
  P w → P (Enemy_take_turn i w r).1.
Proof.
  intros Hw. unfold Enemy_take_turn.
  destruct (entities w !! i) as [e|]; [|done].
  destruct (choice MOVES r) as [d r'].
  destruct (is_solid_at w (x e + d.1) (y e + d.2)) eqn:Hs; [done|].
  destruct (get_player w) as [pl|]; [destruct (_ && _)|]; simpl; auto.
Qed.

Lemma QEnemy_take_turn_preserves (i : nat) (w : World) (pm : Z) (r : Rand) :
  P w → P (QEnemy_take_turn i w pm r).1.
Proof.
  intros Hw. unfold QEnemy_take_turn.
  destruct (negb (pm mod Q_MOVE_INTERVAL =? 0)); [done|].
  destruct (entities w !! i) as [e|]; [|done].
  destruct (choice MOVES r) as [d r'].
  set (w1 := if negb (is_solid_at w (x e + d.1) (y e + d.2))
             then set_pos i (x e + d.1) (y e + d.2) w else w).
  assert (P w1) as Hw1.
  { subst w1. destruct (is_solid_at w (x e + d.1) (y e + d.2)) eqn:Hs; simpl; auto. }
  destruct (get_player w1) as [pl|];
    [destruct (entities w1 !! i) as [e1|];
     [destruct (manhattan e1 pl <=? Q_RANGE)|]|]; simpl; auto.
Qed.

Lemma enemies_pass_preserves (refs : list nat) (w : World) (r : Rand) :
  P w → P (enemies_pass refs w r).1.
Proof.
  revert w r. induction refs as [|i rest IH]; intros w r Hw; simpl; [done|].
  pose proof (Enemy_take_turn_preserves i w r Hw) as Hi.
  destruct (Enemy_take_turn i w r) as [w' r']. by apply IH.
Qed.

Lemma q_pass_preserves (refs : list nat) (w : World) (pm : Z) (r : Rand) :
  P w → P (q_pass refs w pm r).1.
Proof.
  revert w r. induction refs as [|i rest IH]; intros w r Hw; simpl; [done|].
  pose proof (QEnemy_take_turn_preserves i w pm r Hw) as Hi.
  destruct (QEnemy_take_turn i w pm r) as [w' r']. by apply IH.
Qed.

Lemma after_move_preserves (w w' : World) (pm : Z) (r r' : Rand) (tr : list Event) :
  after_move w pm r = (w', r', tr) → P w → P w'.
Proof.
  intros Ha Hw. apply after_move_inv in Ha as (w1 & r1 & w2 & r2 & He & Hq & H).
  pose proof (enemies_pass_preserves (get_enemies w) w r Hw) as H1.
  rewrite He in H1. simpl in H1.
  pose proof (q_pass_preserves (get_q_enemies w1) w1 pm r1 H1) as H2.
  rewrite Hq in H2. simpl in *.
  destruct (pm mod Q_SPAWN_INTERVAL =? 0).
  - destruct H as (sx & sy & Hs & _).
    apply spawn_step_inv in Hs as [[Hs ->] | [_ ->]]; auto.
  - by destruct H as (-> & _).
Qed.

End Preservation.

(** The player's move in detail: a displacement goes to a free cell or onto
    a passable entity that is neither an enemy nor a goal; otherwise at most
    a flag is raised. *)
Lemma player_step_cases (d : Z * Z) (w w1 : World) (moved : bool) :
  player_step d w = (w1, moved) →
  if moved
  then ∃ p, entities w !! player = Some p
            ∧ w1 = set_pos player (x p + d.1) (y p + d.2) w
            ∧ (is_solid_at w (x p + d.1) (y p + d.2) = false
               ∨ ∃ t, In t (entities w) ∧ pos t = (x p + d.1, y p + d.2)
                      ∧ solid t = false ∧ char t ≠ "G"%string)
  else w1 = w ∨ w1 = set_game_over w ∨ w1 = set_win w.
Proof.
  unfold player_step. destruct (entities w !! player) as [p|] eqn:Hp.
  - destruct (get_entity_at w (x p + d.1) (y p + d.2)) as [t|] eqn:Ht.
    + destruct ((char t =? "E")%string || (char t =? "Q")%string).
      { intros [= <- <-]. auto. }
      destruct (char t =? "G")%string eqn:HG.
      { intros [= <- <-]. auto. }
      destruct (solid t) eqn:Hs; simpl; intros [= <- <-]; [auto|].
      exists p. split; [done|]. split; [done|]. right. exists t.
      apply find_some in Ht as [Hin Hc]. apply at_cell_pos in Hc.
      apply String.eqb_neq in HG. done.
    + destruct (is_solid_at w _ _) eqn:Hs; simpl; intros [= <- <-]; [auto|].
      exists p. auto.
  - intros [= <- <-]. auto.
Qed.

(** *** Entities stay on the grid *)

Lemma all_in_grid_flags (w w' : World) :
  entities w' = entities w → width w' = width w → height w' = height w →
  all_in_grid w → all_in_grid w'.
Proof.
  unfold all_in_grid, in_grid. intros -> -> ->. done.
Qed.

Lemma set_pos_all_in_grid (i : nat) (nx ny : Z) (w : World) :
  all_in_grid w → in_grid w nx ny → all_in_grid (set_pos i nx ny w).
Proof.
  intros Hw Hn j e' Hj. unfold in_grid.
  rewrite set_pos_width, set_pos_height.
  destruct (decide (i = j)) as [<-|Hne].
  - destruct (entities w !! i) as [e|] eqn:He.
    + rewrite (set_pos_lookup_eq _ _ _ _ _ He) in Hj. by injection Hj as <-.
    + unfold set_pos in Hj. rewrite He in Hj. congruence.
  - rewrite set_pos_lookup_ne in Hj by done. by apply (Hw j).
Qed.

Lemma add_entity_all_in_grid (e : Entity) (w : World) :
  all_in_grid w → in_grid w (x e) (y e) → all_in_grid (add_entity e w).
Proof.
  intros Hw He j e' Hj. simpl in Hj.
  apply lookup_app_Some in Hj as [Hj | [_ Hj]]; [by apply (Hw j)|].
  by apply list_lookup_singleton_Some in Hj as [_ <-].
Qed.

Lemma after_move_all_in_grid (w w' : World) (pm : Z) (r r' : Rand) (tr : list Event) :
  after_move w pm r = (w', r', tr) → all_in_grid w → all_in_grid w'.
Proof.
  apply (after_move_preserves all_in_grid).
  - intros v. by apply all_in_grid_flags.
  - intros i nx ny v Hv Hs. apply set_pos_all_in_grid; [done|].
    by apply free_cell_in_grid.
  - intros sx sy v Hv Hs. apply add_entity_all_in_grid; [done|].
    by apply free_cell_in_grid.
Qed.

Lemma tick_all_in_grid (g g' : Game) (key : Z) (tr : list Event) :
  all_in_grid (world g) →
  tick key g = Continue g' tr →
  all_in_grid (world g').
Proof.
  intros Hw Ht.
  apply tick_Continue_inv in Ht as [(_ & -> & _) | (_ & Ht)]; [done|].
  apply turn_inv in Ht as (w1 & moved & Hs & Hm).
  apply player_step_cases in Hs. destruct moved.
  - destruct Hs as (p & Hp & -> & Hfree).
    destruct Hm as (w2 & r2 & Ha & ->). simpl.
    eapply after_move_all_in_grid; [exact Ha|].
    apply set_pos_all_in_grid; [done|].
    destruct Hfree as [Hs | (t & Hin & [= Hx Hy] & _)].
    + by apply free_cell_in_grid.
    + apply list_elem_of_In, list_elem_of_lookup in Hin as [j Hj].
      rewrite <- Hx, <- Hy. by apply (Hw j).
  - destruct Hm as [-> _]. simpl.
    destruct Hs as [-> | [-> | ->]]; by try apply (all_in_grid_flags (world g)).
Qed.

(** No tick takes an entity off the grid: if every entity stands on a cell
    of the grid before an iteration of the loop, every entity, a newly
    spawned pursuer included, does so after it. *)
Theorem tick_keeps_entities_in_grid (g g' : Game) (key : Z) (tr : list Event) :
  all_in_grid (world g) →
  tick key g = Continue g' tr →
  all_in_grid (world g').
Proof. apply tick_all_in_grid. Qed.

Lemma yard_in_grid : all_in_grid yard.
Proof.
  intros i e He.
  do 4 (destruct i as [|i];
        [injection He as <-; repeat split; vm_compute; congruence |]).
  discriminate.
Qed.

Lemma tick_keeps_entities_in_grid_witness :
  all_in_grid (world (run [115] (mkGame yard (0, 0) 0 (mkRand stay_tape 0)))).
Proof.
  apply (tick_keeps_entities_in_grid (mkGame yard (0, 0) 0 (mkRand stay_tape 0))
           (run [115] (mkGame yard (0, 0) 0 (mkRand stay_tape 0)))
           115 [Act_E 1; Act_Q 3]).
  - exact yard_in_grid.
  - vm_compute. reflexivity.
Defined.

Lemma initial_world_in_grid : all_in_grid initial_world.
Proof.
  intros i e He.
  do 37 (destruct i as [|i];
         [vm_compute in He; injection He as <-;
          repeat split; vm_compute; congruence |]).
  vm_compute in He. discriminate.
Qed.

Lemma Reachable_in_grid (g : Game) : Reachable g → all_in_grid (world g).
Proof.
  induction 1 as [tp | g g' key tr _ IH _ Ht].
  - apply initial_world_in_grid.
  - by eapply tick_all_in_grid.
Qed.

(** *** Entities are only appended *)

Lemma effect_lookup (w w' : World) (i : nat) (e : Entity) :
  enemy_effect w w' → entities w !! i = Some e →
  ∃ e', entities w' !! i = Some e' ∧ char e' = char e ∧ solid e' = solid e.
Proof.
  intros E He. pose proof (eff_char _ _ E i) as Hc.
  pose proof (eff_solid _ _ E i) as Hs. rewrite He in Hc, Hs.
  destruct (entities w' !! i) as [e'|]; [|done].
  exists e'. simpl in *. split; [done|]. split; congruence.
Qed.

Lemma after_move_growth (w w' : World) (pm : Z) (r r' : Rand) (tr : list Event) :
  after_move w pm r = (w', r', tr) →
  ∃ v, enemy_effect w v
       ∧ (w' = v
          ∨ (pm mod 10 = 0 ∧ ∃ sx sy, is_solid_at v sx sy = false
                                      ∧ w' = add_entity (QEnemy sx sy) v)).
Proof.
  intros Ha.
  apply after_move_shape in Ha as (v1 & v2 & acts & E1 & E2 & _ & _ & _ & Hsp).
  exists v2. split; [by eapply enemy_effect_trans|].
  destruct Hsp as [(Hpm & sx & sy & _ & [[Hs ->] | [_ ->]]) | (_ & _ & ->)];
    [|by left..].
  right. split; [done|]. by exists sx, sy.
Qed.

(** What a whole iteration does to the list of entities and to the counter,
    whatever the player's move did. *)
Lemma tick_growth (g g' : Game) (key : Z) (tr : list Event) :
  tick key g = Continue g' tr →
  ∃ v, enemy_effect (world g) v
       ∧ ((entities (world g') = entities v
           ∧ player_moves g <= player_moves g' <= player_moves g + 1)
          ∨ (player_moves g' = player_moves g + 1 ∧ player_moves g' mod 10 = 0
             ∧ ∃ sx sy, is_solid_at v sx sy = false
                        ∧ entities (world g') = entities v ++ [QEnemy sx sy])).
Proof.
  intros Ht.
  apply tick_Continue_inv in Ht as [(_ & -> & _) | (_ & Ht)].
  { exists (world g). split; [apply enemy_effect_refl|]. left. simpl.
    split; [done | lia]. }
  apply turn_inv in Ht as (w1 & moved & Hs & Hm).
  apply player_step_cases in Hs. destruct moved.
  - destruct Hs as (p & Hp & -> & _). destruct Hm as (w2 & r2 & Ha & ->). simpl.
    apply after_move_growth in Ha as (v & Ev & Hv).
    exists v. split.
    { eapply enemy_effect_trans; [apply enemy_effect_set_pos | exact Ev]. }
    destruct Hv as [-> | (Hpm & sx & sy & Hs & ->)].
    + left. split; [done | lia].
    + right. split; [done|]. split; [done|]. by exists sx, sy.
  - destruct Hm as [-> _]. simpl. exists (world g).
    split; [apply enemy_effect_refl|]. left.
    split; [|lia]. by destruct Hs as [-> | [-> | ->]].
Qed.

Lemma tick_size (g g' : Game) (key : Z) (tr : list Event) :
  tick key g = Continue g' tr →
  width (world g') = width (world g) ∧ height (world g') = height (world g).
Proof.
  intros Ht.
  apply tick_Continue_inv in Ht as [(_ & -> & _) | (_ & Ht)]; [done|].
  apply turn_inv in Ht as (w1 & moved & Hs & Hm).
  apply player_step_cases in Hs. destruct moved.
  - destruct Hs as (p & Hp & -> & _). destruct Hm as (w2 & r2 & Ha & ->). simpl.
    apply after_move_growth in Ha as (v & Ev & Hv).
    pose proof (eff_width _ _ Ev) as Hw. pose proof (eff_height _ _ Ev) as Hh.
    rewrite set_pos_width in Hw. rewrite set_pos_height in Hh.
    by destruct Hv as [-> | (_ & sx & sy & _ & ->)].
  - destruct Hm as [-> _]. simpl. by destruct Hs as [-> | [-> | ->]].
Qed.

(** Over an iteration of the loop the grid keeps its size, no entity is
    removed or reordered, every entity keeps its [char] and its [solid]
    flag, and an entity that is new after the iteration is a solid [Q]. *)
Theorem tick_entities_stable (g g' : Game) (key : Z) (tr : list Event) :
  tick key g = Continue g' tr →
  width (world g') = width (world g)
  ∧ height (world g') = height (world g)
  ∧ (∀ i e, entities (world g) !! i = Some e →
       ∃ e', entities (world g') !! i = Some e'
             ∧ char e' = char e ∧ solid e' = solid e)
  ∧ (∀ i e', entities (world g') !! i = Some e' →
       (length (entities (world g)) ≤ i)%nat →
       char e' = "Q"%string ∧ solid e' = true).
Proof.
  intros Ht. destruct (tick_size _ _ _ _ Ht) as [Hw Hh].
  split; [done|]. split; [done|].
  apply tick_growth in Ht as (v & Ev & Hv).
  pose proof (eff_length _ _ Ev) as Hl.
  destruct Hv as [[Hes _] | (_ & _ & sx & sy & _ & Hes)]; rewrite Hes.
  - split.
    + intros i e He. by eapply effect_lookup.
    + intros i e' He' Hi. apply lookup_lt_Some in He'. lia.
  - split.
    + intros i e He. destruct (effect_lookup _ _ _ _ Ev He) as (e' & He' & Hc).
      exists e'. split; [by apply lookup_app_l_Some | done].
    + intros i e' He' Hi.
      apply lookup_app_Some in He' as [He' | [_ He']].
      * apply lookup_lt_Some in He'. lia.
      * by apply list_lookup_singleton_Some in He' as [_ <-].
Qed.

Lemma tick_entities_stable_witness :
  width (world (run [key_d] before_spawn)) = width (world before_spawn)
  ∧ height (world (run [key_d] before_spawn)) = height (world before_spawn)
  ∧ (∀ i e, entities (world before_spawn) !! i = Some e →
       ∃ e', entities (world (run [key_d] before_spawn)) !! i = Some e'
             ∧ char e' = char e ∧ solid e' = solid e)
  ∧ (∀ i e', entities (world (run [key_d] before_spawn)) !! i = Some e' →
       (length (entities (world before_spawn)) ≤ i)%nat →
       char e' = "Q"%string ∧ solid e' = true).
Proof.
  apply (tick_entities_stable before_spawn (run [key_d] before_spawn)
           key_d [Spawn_try 5 4]).
  vm_compute. reflexivity.
Defined.


(** *** Solid entities never overlap *)

Lemma set_pos_solids_apart (i : nat) (nx ny : Z) (w : World) :
  solids_apart w → is_solid_at w nx ny = false → solids_apart (set_pos i nx ny w).
Proof.
  intros Hw Hfree.
  destruct (entities w !! i) as [e|] eqn:He;
    [|unfold set_pos; by rewrite He].
  pose proof (set_pos_lookup_eq i nx ny w e He) as Hi.
  assert (∀ j e', entities (set_pos i nx ny w) !! j = Some e' →
            (j ≠ i ∧ entities w !! j = Some e')
            ∨ (j = i ∧ e' = mkEntity nx ny (char e) (solid e))) as Hcase.
  { intros j e' Hj. destruct (decide (i = j)) as [<-|Hne].
    - right. split; [done|]. congruence.
    - left. split; [done|]. by rewrite set_pos_lookup_ne in Hj. }
  intros a b ea eb Hab Ha Hb Hsa Hsb Hpos.
  apply Hcase in Ha as [[Hai Ha] | [-> ->]];
    apply Hcase in Hb as [[Hbi Hb] | [-> ->]]; try done.
  - by apply (Hw a b ea eb).
  - by apply (free_cell_no_solid w nx ny a ea).
  - by apply (free_cell_no_solid w nx ny b eb).
Qed.

Lemma add_entity_solids_apart (e : Entity) (w : World) :
  solids_apart w → is_solid_at w (x e) (y e) = false →
  solids_apart (add_entity e w).
Proof.
  intros Hw Hfree.
  assert (∀ j e', entities (add_entity e w) !! j = Some e' →
            entities w !! j = Some e'
            ∨ (j = length (entities w) ∧ e' = e)) as Hcase.
  { intros j e' Hj. simpl in Hj.
    apply lookup_app_Some in Hj as [Hj | [Hge Hj]]; [by left|].
    apply list_lookup_singleton_Some in Hj as [Hj <-].
    right. split; [lia | done]. }
  intros a b ea eb Hab Ha Hb Hsa Hsb Hpos.
  apply Hcase in Ha as [Ha | [-> ->]];
    apply Hcase in Hb as [Hb | [-> ->]]; try done.
  - by apply (Hw a b ea eb).
  - by apply (free_cell_no_solid w (x e) (y e) a ea).
  - by apply (free_cell_no_solid w (x e) (y e) b eb).
Qed.

Lemma after_move_solids_apart (w w' : World) (pm : Z) (r r' : Rand) (tr : list Event) :
  after_move w pm r = (w', r', tr) → solids_apart w → solids_apart w'.
Proof.
  apply (after_move_preserves solids_apart); [done|..].
  - intros i nx ny v. apply set_pos_solids_apart.
  - intros sx sy v Hv Hs. by apply add_entity_solids_apart.
Qed.

Lemma tick_solids_apart (g g' : Game) (key : Z) (tr : list Event) :
  passable_is_goal (world g) → solids_apart (world g) →
  tick key g = Continue g' tr → solids_apart (world g').
Proof.
  intros Hpg Hw Ht.
  apply tick_Continue_inv in Ht as [(_ & -> & _) | (_ & Ht)]; [done|].
  apply turn_inv in Ht as (w1 & moved & Hs & Hm).
  apply player_step_cases in Hs. destruct moved.
  - destruct Hs as (p & Hp & -> & Hfree).
    destruct Hm as (w2 & r2 & Ha & ->). simpl.
    eapply after_move_solids_apart; [exact Ha|].
    destruct Hfree as [Hs | (t & Hin & _ & Hst & HG)].
    + by apply set_pos_solids_apart.
    + apply list_elem_of_In, list_elem_of_lookup in Hin as [j Hj].
      by destruct HG; apply (Hpg j).
  - destruct Hm as [-> _]. simpl. by destruct Hs as [-> | [-> | ->]].
Qed.

(** *** One player, and only goals are passable *)

Lemma effect_lookup_back (w w' : World) (i : nat) (e' : Entity) :
  enemy_effect w w' → entities w' !! i = Some e' →
  ∃ e, entities w !! i = Some e ∧ char e' = char e ∧ solid e' = solid e.
Proof.
  intros E He. pose proof (eff_char _ _ E i) as Hc.
  pose proof (eff_solid _ _ E i) as Hs. rewrite He in Hc, Hs.
  destruct (entities w !! i) as [e|]; [|done].
  exists e. simpl in *. split; [done|]. split; congruence.
Qed.

(** Where an entity of the state after an iteration comes from. *)
Lemma tick_lookup_cases (g g' : Game) (key : Z) (tr : list Event)
    (i : nat) (e' : Entity) :
  tick key g = Continue g' tr →
  entities (world g') !! i = Some e' →
  (∃ e, entities (world g) !! i = Some e ∧ char e' = char e ∧ solid e' = solid e)
  ∨ (char e' = "Q"%string ∧ solid e' = true).
Proof.
  intros Ht He'. apply tick_growth in Ht as (v & Ev & Hv).
  destruct Hv as [[Hes _] | (_ & _ & sx & sy & _ & Hes)]; rewrite Hes in He'.
  - left. by eapply effect_lookup_back.
  - apply lookup_app_Some in He' as [He' | [_ He']].
    + left. by eapply effect_lookup_back.
    + right. by apply list_lookup_singleton_Some in He' as [_ <-].
Qed.

Lemma tick_lookup_forward (g g' : Game) (key : Z) (tr : list Event)
    (i : nat) (e : Entity) :
  tick key g = Continue g' tr →
  entities (world g) !! i = Some e →
  ∃ e', entities (world g') !! i = Some e' ∧ char e' = char e ∧ solid e' = solid e.
Proof.
  intros Ht He. apply tick_growth in Ht as (v & Ev & Hv).
  destruct (effect_lookup _ _ _ _ Ev He) as (e' & He' & Hc).
  exists e'. split; [|done].
  destruct Hv as [[-> _] | (_ & _ & sx & sy & _ & ->)]; [done|].
  by apply lookup_app_l_Some.
Qed.

Lemma tick_sole_player (g g' : Game) (key : Z) (tr : list Event) :
  sole_player (world g) → tick key g = Continue g' tr → sole_player (world g').
Proof.
  intros [(p & Hp & Hc & Hs) Huniq] Ht. split.
  - destruct (tick_lookup_forward _ _ _ _ _ _ Ht Hp) as (p' & Hp' & Hc' & Hs').
    exists p'. split; [done|]. split; congruence.
  - intros i e' He' Hat.
    destruct (tick_lookup_cases _ _ _ _ _ _ Ht He') as [(e & He & Hce & _) | [HQ _]].
    + apply (Huniq i e); [done | congruence].
    + rewrite Hat in HQ. discriminate.
Qed.

Lemma tick_passable_is_goal (g g' : Game) (key : Z) (tr : list Event) :
  passable_is_goal (world g) → tick key g = Continue g' tr →
  passable_is_goal (world g').
Proof.
  intros Hpg Ht i e' He' Hs.
  destruct (tick_lookup_cases _ _ _ _ _ _ Ht He') as [(e & He & Hce & Hse) | [_ HQ]].
  - rewrite Hce. apply (Hpg i e); [done | congruence].
  - congruence.
Qed.

Lemma tick_sound (g g' : Game) (key : Z) (tr : list Event) :
  sound (world g) → tick key g = Continue g' tr → sound (world g').
Proof.
  intros (Hsp & Hpg & Hsa & Hig) Ht.
  split; [by eapply tick_sole_player|].
  split; [by eapply tick_passable_is_goal|].
  split; [by eapply tick_solids_apart | by eapply tick_all_in_grid].
Qed.

Lemma apart_of_NoDup (w : World) :
  NoDup (pos <$> entities w) → solids_apart w.
Proof.
  intros Hnd i j ei ej Hij Hi Hj _ _ Hpos. apply Hij.
  apply (NoDup_lookup _ i j (pos ei) Hnd); rewrite list_lookup_fmap.
  - by rewrite Hi.
  - rewrite Hj. simpl. by rewrite Hpos.
Qed.

Lemma initial_world_sound : sound initial_world.
Proof.
  split; [|split; [|split]].
  - split.
    + by exists (mkEntity 1 (GY - 2) "@" true).
    + intros i e He Hc.
      destruct i as [|i]; [done|]. exfalso.
      do 36 (destruct i as [|i];
             [vm_compute in He; injection He as <-; discriminate Hc |]).
      vm_compute in He. discriminate.
  - intros i e He Hs.
    do 37 (destruct i as [|i];
           [vm_compute in He; injection He as <-;
            first [ discriminate Hs | reflexivity ] |]).
    vm_compute in He. discriminate.
  - apply apart_of_NoDup.
    apply (bool_decide_unpack _). vm_compute. exact I.
  - apply initial_world_in_grid.
Qed.

Lemma Reachable_sound (g : Game) : Reachable g → sound (world g).
Proof.
  induction 1 as [tp | g g' key tr _ IH _ Ht].
  - apply initial_world_sound.
  - by eapply tick_sound.
Qed.

Lemma get_player_is_player (w : World) :
  player_bound w → get_player w = entities w !! player.
Proof.
  intros (p & Hp & Hc). unfold get_player, player in *.
  destruct (entities w) as [|q l]; [done|].
  injection Hp as ->. simpl. by rewrite Hc.
Qed.

(** In every state of a session started by [main], no two solid entities
    (the player, the enemies, the floor) stand on the same cell. *)
Theorem solids_never_overlap (g : Game) :
  Reachable g → solids_apart (world g).
Proof. intros Hg. by destruct (Reachable_sound g Hg) as (_ & _ & H & _). Qed.

Lemma solids_never_overlap_witness :
  solids_apart (world (run [key_d; key_d] (initial_game ambush_tape))).
Proof.
  apply (solids_never_overlap (run [key_d; key_d] (initial_game ambush_tape))).
  apply Reachable_run, reach_init.
Defined.

(** In every state of a session started by [main] there is exactly one
    entity drawn as [@]; it is solid, it is the object [main] holds in
    [player], and [get_player] returns it. *)
Theorem one_player_throughout (g : Game) :
  Reachable g →
  sole_player (world g) ∧ get_player (world g) = entities (world g) !! player.
Proof.
  intros Hg. destruct (Reachable_sound g Hg) as (Hsp & _).
  split; [done|]. apply get_player_is_player.
  destruct Hsp as [(p & Hp & Hc & _) _]. by exists p.
Qed.

Lemma one_player_throughout_witness :
  sole_player (world (run [key_d; key_d] (initial_game ambush_tape)))
  ∧ get_player (world (run [key_d; key_d] (initial_game ambush_tape)))
    = entities (world (run [key_d; key_d] (initial_game ambush_tape))) !! player.
Proof.
  apply (one_player_throughout (run [key_d; key_d] (initial_game ambush_tape))).
  apply Reachable_run, reach_init.
Defined.

(** ** How many pursuers there can be *)

Lemma refs_where_length (p : Entity → bool) (es : list Entity) :
  length (refs_where p es) = length (List.filter p es).
Proof.
  unfold refs_where. induction es as [|a es IH] using rev_ind; [done|].
  rewrite length_app, Nat.add_1_r, seq_S, !List.filter_app, !length_app. simpl.
  rewrite lookup_app_r, Nat.sub_diag by lia. simpl.
  rewrite <- IH. f_equal; [|by destruct (p a)]. f_equal.
  apply filter_ext_in. intros i Hi. apply in_seq in Hi.
  by rewrite lookup_app_l by lia.
Qed.

Lemma filter_by_char (f : string → bool) (es : list Entity) :
  length (List.filter (λ e, f (char e)) es) = length (List.filter f (map char es)).
Proof.
  induction es as [|a es IH]; [done|]. simpl.
  destruct (f (char a)); simpl; by rewrite IH.
Qed.

Lemma effect_chars (w v : World) :
  enemy_effect w v → map char (entities v) = map char (entities w).
Proof.
  intros E. apply list_eq. intros i.
  change (map char) with (fmap (M:=list) char).
  rewrite !list_lookup_fmap. apply (eff_char _ _ E).
Qed.

Lemma q_count_chars (w : World) :
  q_count w = length (List.filter (λ c, (c =? "Q")%string) (map char (entities w))).
Proof.
  unfold q_count, get_q_enemies. rewrite refs_where_length.
  apply (filter_by_char (λ c, (c =? "Q")%string)).
Qed.

Lemma tick_q_count (g g' : Game) (key : Z) (tr : list Event) :
  tick key g = Continue g' tr →
  (q_count (world g') = q_count (world g)
   ∧ player_moves g <= player_moves g' <= player_moves g + 1)
  ∨ (q_count (world g') = S (q_count (world g))
     ∧ player_moves g' = player_moves g + 1 ∧ player_moves g' mod 10 = 0).
Proof.
  intros Ht. apply tick_growth in Ht as (v & Ev & Hv).
  rewrite !q_count_chars. apply effect_chars in Ev.
  destruct Hv as [[-> Hpm] | (Hpm & Hmod & sx & sy & _ & ->)].
  - left. by rewrite Ev.
  - right. split; [|done].
    rewrite map_app, List.filter_app, length_app, Ev. simpl. lia.
Qed.

(** In a session started by [main] the counter is never negative and there
    is never more than one pursuer for every ten successful moves. *)
Theorem pursuers_bounded_by_moves (g : Game) :
  Reachable g →
  0 <= player_moves g
  ∧ Z.of_nat (length (get_q_enemies (world g))) <= player_moves g / 10.
Proof.
  fold (q_count (world g)).
  induction 1 as [tp | g g' key tr _ [IH0 IH] _ Ht].
  - vm_compute. split; discriminate.
  - apply tick_q_count in Ht as [[-> Hpm] | (-> & Hpm & Hmod)].
    + split; [lia|]. etrans; [exact IH|]. apply Z.div_le_mono; lia.
    + split; [lia|].
      pose proof (Z.div_mod (player_moves g') 10 ltac:(lia)) as H1.
      pose proof (Z.div_mod (player_moves g) 10 ltac:(lia)) as H2.
      pose proof (Z.mod_pos_bound (player_moves g) 10 ltac:(lia)) as H3.
      lia.
Qed.

Lemma pursuers_bounded_by_moves_witness :
  0 <= player_moves (run (replicate 10 key_d) (initial_game (λ _, 0%nat)))
  ∧ Z.of_nat (length (get_q_enemies
                (world (run (replicate 10 key_d) (initial_game (λ _, 0%nat))))))
    <= player_moves (run (replicate 10 key_d) (initial_game (λ _, 0%nat))) / 10.
Proof.
  apply (pursuers_bounded_by_moves
           (run (replicate 10 key_d) (initial_game (λ _, 0%nat)))).
  apply Reachable_run, reach_init.
Defined.

(** ** One activation, one step *)

Lemma choice_in_MOVES (r : Rand) : In (choice MOVES r).1 MOVES.
Proof.
  change (choice MOVES r).1
    with (nth (tape r (cursor r) mod length MOVES)%nat MOVES (0, 0)).
  apply nth_In. apply Nat.mod_upper_bound. discriminate.
Qed.

Lemma stepped_refl (w : World) (e : Entity) : stepped w e e.
Proof. unfold stepped. auto. Qed.

Lemma set_pos_stepped (i : nat) (w : World) (e : Entity) (d : Z * Z) :
  entities w !! i = Some e → In d MOVES →
  is_solid_at w (x e + d.1) (y e + d.2) = false →
  ∃ e', entities (set_pos i (x e + d.1) (y e + d.2) w) !! i = Some e'
        ∧ stepped w e e'.
Proof.
  intros He Hd Hs. eexists. split; [by apply set_pos_lookup_eq|].
  unfold stepped, manhattan, pos. simpl. split; [done|]. split; [done|].
  simpl in Hd.
  destruct Hd as [<-|[<-|[<-|[<-|[<-|[]]]]]]; simpl in *;
    first [ left; f_equal; lia | right; split; [lia | done] ].
Qed.

(** An activation of a roamer or of a pursuer moves that enemy by at most
    one cell, horizontally or vertically, and only onto a cell that was not
    solid; it moves no other entity. *)
Theorem activation_moves_one_step (i : nat) (w : World) (pm : Z) (r : Rand)
    (e : Entity) :
  entities w !! i = Some e →
  (∃ e', entities (Enemy_take_turn i w r).1 !! i = Some e' ∧ stepped w e e')
  ∧ (∃ e', entities (QEnemy_take_turn i w pm r).1 !! i = Some e' ∧ stepped w e e')
  ∧ (∀ j, j ≠ i →
       entities (Enemy_take_turn i w r).1 !! j = entities w !! j
       ∧ entities (QEnemy_take_turn i w pm r).1 !! j = entities w !! j).
Proof.
  intros He. pose proof (choice_in_MOVES r) as Hd.
  split; [|split].
  - unfold Enemy_take_turn. rewrite He.
    destruct (choice MOVES r) as [d r']. simpl in Hd.
    destruct (is_solid_at w (x e + d.1) (y e + d.2)) eqn:Hs.
    { exists e. split; [done | apply stepped_refl]. }
    destruct (get_player w) as [pl|]; [destruct (_ && _)|]; simpl.
    + exists e. split; [done | apply stepped_refl].
    + by apply set_pos_stepped.
    + by apply set_pos_stepped.
  - unfold QEnemy_take_turn.
    destruct (negb (pm mod Q_MOVE_INTERVAL =? 0)).
    { exists e. split; [done | apply stepped_refl]. }
    rewrite He. destruct (choice MOVES r) as [d r']. simpl in Hd.
    set (w1 := if negb (is_solid_at w (x e + d.1) (y e + d.2))
               then set_pos i (x e + d.1) (y e + d.2) w else w).
    assert (∃ e', entities w1 !! i = Some e' ∧ stepped w e e')
      as (e' & He' & Hst).
    { subst w1. destruct (is_solid_at w (x e + d.1) (y e + d.2)) eqn:Hs; simpl.
      - exists e. split; [done | apply stepped_refl].
      - by apply set_pos_stepped. }
    exists e'. split; [|done].
    destruct (get_player w1) as [pl|];
      [rewrite He'; destruct (manhattan e' pl <=? Q_RANGE)|]; done.
  - intros j Hj. split.
    + by apply Enemy_take_turn_lookup_ne.
    + by apply QEnemy_take_turn_lookup_ne.
Qed.

Lemma activation_moves_one_step_witness :
  (∃ e', entities (Enemy_take_turn 1 yard (mkRand (λ _, 2%nat) 0)).1 !! 1%nat = Some e'
         ∧ stepped yard (Enemy 2 1) e')
  ∧ (∃ e', entities (QEnemy_take_turn 1 yard 0 (mkRand (λ _, 2%nat) 0)).1 !! 1%nat = Some e'
           ∧ stepped yard (Enemy 2 1) e')
  ∧ (∀ j, j ≠ 1%nat →
       entities (Enemy_take_turn 1 yard (mkRand (λ _, 2%nat) 0)).1 !! j
         = entities yard !! j
       ∧ entities (QEnemy_take_turn 1 yard 0 (mkRand (λ _, 2%nat) 0)).1 !! j
         = entities yard !! j).
Proof.
  apply (activation_moves_one_step 1 yard 0 (mkRand (λ _, 2%nat) 0) (Enemy 2 1)).
  reflexivity.
Defined.

(** ** Where the player can go *)

Lemma read_key_unit (key : Z) (d : Z * Z) :
  read_key key = KeyDir d → Z.abs d.1 + Z.abs d.2 = 1.
Proof.
  unfold read_key. repeat case_match; intros [= <-]; done.
Qed.

Lemma player_step_moved_free (d : Z * Z) (w w1 : World) :
  passable_is_goal w → player_step d w = (w1, true) →
  ∃ p, entities w !! player = Some p
       ∧ w1 = set_pos player (x p + d.1) (y p + d.2) w
       ∧ get_entity_at w (x p + d.1) (y p + d.2) = None
       ∧ is_solid_at w (x p + d.1) (y p + d.2) = false.
Proof.
  intros Hpg. unfold player_step.
  destruct (entities w !! player) as [p|] eqn:Hp; [|done].
  destruct (get_entity_at w (x p + d.1) (y p + d.2)) as [t|] eqn:Ht.
  - destruct ((char t =? "E")%string || (char t =? "Q")%string); [done|].
    destruct (char t =? "G")%string eqn:HG; [done|].
    destruct (solid t) eqn:Hs; [done|]. exfalso.
    apply find_some in Ht as [Hin _].
    apply list_elem_of_In, list_elem_of_lookup in Hin as [j Hj].
    apply String.eqb_neq in HG. apply HG. by apply (Hpg j).
  - destruct (is_solid_at w _ _) eqn:Hs; [done|]. simpl.
    intros [= <-]. by exists p.
Qed.

(** In a session started by [main], an iteration either leaves the player
    where it is or takes it one cell in the direction of the key pressed,
    and then onto a cell that held no entity and was inside the grid: the
    player never enters a wall, an enemy or the goal, and never leaves the
    grid. *)
Theorem player_walks_one_free_cell (g g' : Game) (key : Z) (tr : list Event) :
  Reachable g →
  tick key g = Continue g' tr →
  player_pos (world g') = player_pos (world g)
  ∨ ∃ d px py,
      read_key key = KeyDir d ∧ Z.abs d.1 + Z.abs d.2 = 1
      ∧ player_pos (world g) = Some (px, py)
      ∧ player_pos (world g') = Some (px + d.1, py + d.2)
      ∧ get_entity_at (world g) (px + d.1) (py + d.2) = None
      ∧ is_solid_at (world g) (px + d.1) (py + d.2) = false.
Proof.
  intros Hg Ht.
  pose proof (Reachable_loop_head g Hg) as Hlh.
  destruct (Reachable_sound g Hg) as ([(p0 & Hp0 & Hc0 & _) _] & Hpg & _).
  apply tick_Continue_inv in Ht as [(_ & -> & _) | (Hz & Ht)]; [by left|].
  assert (read_key key = KeyDir (key_direction key g)) as Hk.
  { unfold key_direction in *. destruct (read_key key); try done.
    all: unfold loop_head in Hlh; rewrite Hlh in Hz; discriminate. }
  set (d := key_direction key g) in *.
  apply turn_inv in Ht as (w1 & moved & Hs & Hm). destruct moved.
  - right. apply player_step_moved_free in Hs as (p & Hp & -> & Hnone & Hfree);
      [|done].
    destruct Hm as (w2 & r2 & Ha & ->). simpl.
    exists d, (x p), (y p). split; [done|].
    split; [by apply (read_key_unit key)|].
    unfold player_pos. rewrite Hp. split; [done|]. split; [|done].
    erewrite after_move_keeps;
      [ | exact Ha | by apply set_pos_lookup_eq | ]; [done|].
    apply player_not_enemy. simpl. congruence.
  - left. destruct Hm as [-> _]. simpl.
    apply player_step_inv in Hs as [Hes _]. unfold player_pos. by rewrite Hes.
Qed.

Lemma player_walks_one_free_cell_witness :
  player_pos (world (after_tick key_d (initial_game ambush_tape)))
    = player_pos (world (initial_game ambush_tape))
  ∨ ∃ d px py,
      read_key key_d = KeyDir d ∧ Z.abs d.1 + Z.abs d.2 = 1
      ∧ player_pos (world (initial_game ambush_tape)) = Some (px, py)
      ∧ player_pos (world (after_tick key_d (initial_game ambush_tape)))
        = Some (px + d.1, py + d.2)
      ∧ get_entity_at (world (initial_game ambush_tape)) (px + d.1) (py + d.2) = None
      ∧ is_solid_at (world (initial_game ambush_tape)) (px + d.1) (py + d.2) = false.
Proof.
  apply (player_walks_one_free_cell (initial_game ambush_tape)
           (after_tick key_d (initial_game ambush_tape)) key_d
           [Act_E 1; Act_E 2; Act_E 3]).
  - apply reach_init.
  - vm_compute. reflexivity.
Defined.

(** ** How a game is lost *)

Lemma effect_sole_player (w v : World) :
  enemy_effect w v → sole_player w → sole_player v.
Proof.
  intros E [(p & Hp & Hc & Hs) Huniq]. split.
  - destruct (effect_lookup _ _ _ _ E Hp) as (p' & Hp' & Hc' & Hs').
    exists p'. split; [done|]. split; congruence.
  - intros i e' He' Hat.
    destruct (effect_lookup_back _ _ _ _ E He') as (e & He & Hce & _).
    apply (Huniq i e); [done | congruence].
Qed.

Lemma sole_player_bound (w : World) : sole_player w → player_bound w.
Proof. intros [(p & Hp & Hc & _) _]. by exists p. Qed.

(** With a solid player in the world a roamer's activation never raises
    [game_over]: the cell of the player fails the solidity test first. *)
Lemma Enemy_take_turn_harmless (i : nat) (w : World) (r : Rand) :
  sole_player w → game_over (Enemy_take_turn i w r).1 = game_over w.
Proof.
  intros Hsp. pose proof (get_player_is_player w (sole_player_bound w Hsp)) as Hgp.
  destruct Hsp as [(p & Hp & Hc & Hs) _]. rewrite Hp in Hgp.
  unfold Enemy_take_turn. destruct (entities w !! i) as [e|]; [|done].
  destruct (choice MOVES r) as [d r'].
  destruct (is_solid_at w (x e + d.1) (y e + d.2)) eqn:Hfree; [done|].
  rewrite Hgp. destruct (_ && _) eqn:Hpos; simpl; [|apply set_pos_game_over].
  apply andb_true_iff in Hpos as [Hx Hy]. apply Z.eqb_eq in Hx, Hy.
  destruct (free_cell_no_solid w _ _ player p Hfree Hp Hs).
  unfold pos. by rewrite Hx, Hy.
Qed.

Lemma enemies_pass_harmless (refs : list nat) (w : World) (r : Rand) :
  sole_player w → game_over (enemies_pass refs w r).1 = game_over w.
Proof.
  revert w r. induction refs as [|i rest IH]; intros w r Hsp; simpl; [done|].
  pose proof (Enemy_take_turn_harmless i w r Hsp) as Hi.
  pose proof (Enemy_take_turn_effect i w r) as Ei.
  destruct (Enemy_take_turn i w r) as [w' r']. simpl in *.
  rewrite IH; [done|]. by eapply effect_sole_player.
Qed.

Lemma QEnemy_take_turn_raises (q : nat) (w : World) (pm : Z) (r : Rand) :
  game_over w = false →
  game_over (QEnemy_take_turn q w pm r).1 = true →
  pm mod 2 = 0
  ∧ ∃ e pl, entities (QEnemy_take_turn q w pm r).1 !! q = Some e
            ∧ get_player (QEnemy_take_turn q w pm r).1 = Some pl
            ∧ manhattan e pl <= 2.
Proof.
  intros Hgo. unfold QEnemy_take_turn.
  destruct (negb (pm mod Q_MOVE_INTERVAL =? 0)) eqn:Hpm; [simpl; congruence|].
  apply mod_interval_test in Hpm.
  destruct (entities w !! q) as [e|] eqn:He; [|simpl; congruence].
  destruct (choice MOVES r) as [d r'].
  set (w1 := if negb (is_solid_at w (x e + d.1) (y e + d.2))
             then set_pos q (x e + d.1) (y e + d.2) w else w).
  assert (game_over w1 = false) as Hgo1.
  { subst w1. destruct (negb _); [by rewrite set_pos_game_over | done]. }
  destruct (get_player w1) as [pl|] eqn:Hpl;
    [destruct (entities w1 !! q) as [e1|] eqn:He1|]; simpl; try congruence.
  destruct (manhattan e1 pl <=? Q_RANGE) eqn:Hd; simpl; [|congruence].
  intros _. split; [done|]. exists e1, pl.
  apply Z.leb_le in Hd. done.
Qed.

Lemma effect_player_bound (w v : World) :
  enemy_effect w v → player_bound w → player_bound v.
Proof.
  intros E (p & Hp & Hc).
  destruct (effect_lookup _ _ _ _ E Hp) as (p' & Hp' & Hc' & _).
  exists p'. split; [done | congruence].
Qed.

(** When the pursuers' pass raises [game_over], one of the activated
    pursuers ends the pass within range of the player. *)
Lemma q_pass_raises (refs : list nat) (w : World) (pm : Z) (r : Rand) :
  NoDup refs → ¬ In player refs → player_bound w →
  game_over w = false →
  game_over (q_pass refs w pm r).1 = true →
  pm mod 2 = 0
  ∧ ∃ q e pl, In q refs
              ∧ entities (q_pass refs w pm r).1 !! q = Some e
              ∧ entities (q_pass refs w pm r).1 !! player = Some pl
              ∧ manhattan e pl <= 2.
Proof.
  revert w r. induction refs as [|q rest IH]; intros w r Hnd Hpl Hb Hgo; simpl.
  { congruence. }
  apply NoDup_cons in Hnd as [Hq Hnd].
  pose proof (QEnemy_take_turn_raises q w pm r Hgo) as Hraise.
  pose proof (QEnemy_take_turn_effect q w pm r) as Eq.
  destruct (QEnemy_take_turn q w pm r) as [w' r']. simpl in *.
  pose proof (effect_player_bound _ _ Eq Hb) as Hb'.
  destruct (game_over w') eqn:Hgo'.
  - intros _. destruct Hraise as (Hpm & e & pl & He & Hgp & Hd); [done|].
    split; [done|]. exists q, e, pl. split; [by left|].
    rewrite (get_player_is_player w' Hb') in Hgp.
    rewrite !q_pass_lookup_ne; [done | tauto | by rewrite list_elem_of_In in Hq].
  - intros Hfin.
    destruct (IH w' r' Hnd ltac:(tauto) Hb' Hgo' Hfin)
      as (Hpm & q' & e & pl & Hin & He & Hp & Hd).
    split; [done|]. exists q', e, pl. split; [by right | done].
Qed.

Lemma refs_where_NoDup (p : Entity → bool) (es : list Entity) :
  NoDup (refs_where p es).
Proof.
  unfold refs_where. apply NoDup_ListNoDup, List.NoDup_filter, seq_NoDup.
Qed.

Lemma player_step_raises (d : Z * Z) (w w1 : World) (moved : bool) :
  player_step d w = (w1, moved) →
  game_over w = false → game_over w1 = true →
  moved = false
  ∧ ∃ p t, entities w !! player = Some p
           ∧ get_entity_at w (x p + d.1) (y p + d.2) = Some t ∧ is_enemy t.
Proof.
  unfold player_step. destruct (entities w !! player) as [p|] eqn:Hp.
  - destruct (get_entity_at w (x p + d.1) (y p + d.2)) as [t|] eqn:Ht.
    + destruct ((char t =? "E")%string || (char t =? "Q")%string) eqn:HE.
      { intros [= <- <-] _ _. split; [done|]. exists p, t.
        split; [done|]. split; [done|].
        apply orb_true_iff in HE as [HE|HE]; apply String.eqb_eq in HE;
          [by left | by right]. }
      destruct (char t =? "G")%string.
      { intros [= <- <-]. simpl. congruence. }
      destruct (negb (solid t)); intros [= <- <-];
        rewrite ?set_pos_game_over; congruence.
    + destruct (negb (is_solid_at w _ _)); intros [= <- <-];
        rewrite ?set_pos_game_over; congruence.
  - intros [= <- <-]. congruence.
Qed.

(** In a session started by [main], an iteration that raises [game_over]
    has one of two causes: the player, without moving, walked into a cell
    whose first entity is an enemy; or the player moved, the new move count
    is even, and at the end of the turn a pursuer stands within Manhattan
    distance 2 of the player.  A roamer's activation is never the cause. *)
Theorem loss_has_a_cause (g g' : Game) (key : Z) (tr : list Event) :
  Reachable g →
  tick key g = Continue g' tr →
  game_over (world g) = false →
  game_over (world g') = true →
  (player_pos (world g') = player_pos (world g)
   ∧ ∃ p t, entities (world g) !! player = Some p
            ∧ get_entity_at (world g) (x p + (key_direction key g).1)
                                      (y p + (key_direction key g).2) = Some t
            ∧ is_enemy t)
  ∨ (player_moves g' mod 2 = 0
     ∧ ∃ q e pl, entities (world g') !! q = Some e ∧ char e = "Q"%string
                 ∧ entities (world g') !! player = Some pl
                 ∧ manhattan e pl <= 2).
Proof.
  intros Hg Ht Hgo Hgo'.
  destruct (Reachable_sound g Hg) as (Hsp & _).
  apply tick_Continue_inv in Ht as [(_ & -> & _) | (_ & Ht)];
    [simpl in Hgo'; congruence|].
  set (d := key_direction key g) in *.
  apply turn_inv in Ht as (w1 & moved & Hs & Hm). destruct moved.
  - right. destruct Hm as (w2 & r2 & Ha & ->). simpl in *.
    apply player_step_inv in Hs as (p & Hp & ->).
    set (w1 := set_pos player (x p + d.1) (y p + d.2) (world g)) in *.
    assert (sole_player w1) as Hsp1
      by (eapply effect_sole_player; [apply enemy_effect_set_pos | done]).
    assert (game_over w1 = false) as Hgo1
      by (subst w1; by rewrite set_pos_game_over).
    apply after_move_inv in Ha as (v1 & r1 & v2 & q2 & He & Hq & Hsp2).
    pose proof (enemies_pass_harmless (get_enemies w1) w1 (rand g) Hsp1) as Hh.
    pose proof (enemies_pass_effect (get_enemies w1) w1 (rand g)) as E1.
    rewrite He in Hh, E1. simpl in Hh, E1.
    pose proof (effect_sole_player _ _ E1 Hsp1) as Hspv.
    pose proof (sole_player_bound _ Hspv) as Hbv.
    pose proof (q_pass_effect (get_q_enemies v1) v1 (player_moves g + 1) r1) as E2.
    pose proof (q_pass_raises (get_q_enemies v1) v1 (player_moves g + 1) r1
                  (refs_where_NoDup _ _)) as Hraise.
    rewrite Hq in E2, Hraise. simpl in E2, Hraise.
    assert (game_over w2 = game_over v2 ∧
            ∀ i e, entities v2 !! i = Some e → entities w2 !! i = Some e)
      as [Hgo2 Hlift].
    { simpl in Hsp2. destruct (_ =? 0).
      - destruct Hsp2 as (sx & sy & Hst & _).
        apply spawn_step_inv in Hst as [[_ ->] | [_ ->]]; [|done].
        split; [done|]. intros i e Hi. simpl. by apply lookup_app_l_Some.
      - by destruct Hsp2 as (-> & _). }
    destruct Hraise as (Hpm & q & e & pl & Hin & Heq & Hpl & Hd).
    + unfold get_q_enemies. rewrite In_refs_where. intros (p' & Hp' & Hc').
      destruct Hbv as (p'' & Hp'' & Hc''). apply String.eqb_eq in Hc'.
      rewrite Hp' in Hp''. injection Hp'' as ->. rewrite Hc' in Hc''. discriminate.
    + done.
    + congruence.
    + congruence.
    + split; [done|]. exists q, e, pl.
      split; [by apply Hlift|]. split; [|split; [by apply Hlift | done]].
      unfold get_q_enemies in Hin. apply In_refs_where in Hin as (e0 & He0 & Hc0).
      destruct (effect_lookup _ _ _ _ E2 He0) as (e' & He' & Hc' & _).
      apply String.eqb_eq in Hc0. congruence.
  - left. destruct Hm as [-> _]. simpl in *.
    apply player_step_raises in Hs as Hr; [|done..].
    apply player_step_inv in Hs as [Hes _].
    split; [unfold player_pos; by rewrite Hes|]. by destruct Hr.
Qed.

Lemma loss_has_a_cause_witness :
  (player_pos (world (after_tick key_d
       (run (replicate 8 key_d) (initial_game (λ _, 4%nat)))))
   = player_pos (world (run (replicate 8 key_d) (initial_game (λ _, 4%nat))))
   ∧ ∃ p t,
       entities (world (run (replicate 8 key_d) (initial_game (λ _, 4%nat)))) !! player
         = Some p
       ∧ get_entity_at (world (run (replicate 8 key_d) (initial_game (λ _, 4%nat))))
           (x p + (key_direction key_d
                     (run (replicate 8 key_d) (initial_game (λ _, 4%nat)))).1)
           (y p + (key_direction key_d
                     (run (replicate 8 key_d) (initial_game (λ _, 4%nat)))).2)
         = Some t
       ∧ is_enemy t)
  ∨ (player_moves (after_tick key_d
        (run (replicate 8 key_d) (initial_game (λ _, 4%nat)))) mod 2 = 0
     ∧ ∃ q e pl,
         entities (world (after_tick key_d
           (run (replicate 8 key_d) (initial_game (λ _, 4%nat))))) !! q = Some e
         ∧ char e = "Q"%string
         ∧ entities (world (after_tick key_d
             (run (replicate 8 key_d) (initial_game (λ _, 4%nat))))) !! player = Some pl
         ∧ manhattan e pl <= 2).
Proof.
  apply (loss_has_a_cause (run (replicate 8 key_d) (initial_game (λ _, 4%nat)))
           (after_tick key_d (run (replicate 8 key_d) (initial_game (λ _, 4%nat))))
           key_d []).
  - apply Reachable_run, reach_init.
  - vm_compute. reflexivity.
  - reflexivity.
  - reflexivity.
Defined.

(** ** Entity.move *)

(** [Entity.move] refuses a solid target, leaving the world as it is;
    otherwise it relocates the entity and nothing else.  Either way the
    entities stay on the grid, the solid ones stay apart, and the flags and
    the size of the grid are untouched. *)
Theorem move_is_safe (self : nat) (dx dy : Z) (w : World) (e : Entity) :
  entities w !! self = Some e →
  all_in_grid w → solids_apart w →
  (is_solid_at w (x e + dx) (y e + dy) = true → move self dx dy w = w)
  ∧ (is_solid_at w (x e + dx) (y e + dy) = false →
     entities (move self dx dy w) !! self
       = Some (mkEntity (x e + dx) (y e + dy) (char e) (solid e)))
  ∧ (∀ j, j ≠ self → entities (move self dx dy w) !! j = entities w !! j)
  ∧ all_in_grid (move self dx dy w) ∧ solids_apart (move self dx dy w)
  ∧ game_over (move self dx dy w) = game_over w
  ∧ win (move self dx dy w) = win w.
Proof.
  intros He Hig Hsa. unfold move. rewrite He.
  destruct (is_solid_at w (x e + dx) (y e + dy)) eqn:Hs; simpl.
  - do 6 (split; [done|]). done.
  - split; [done|]. split; [intros _; by apply set_pos_lookup_eq|].
    split; [intros j Hj; by apply set_pos_lookup_ne|].
    split; [apply set_pos_all_in_grid; [done | by apply free_cell_in_grid]|].
    split; [by apply set_pos_solids_apart|].
    split; [apply set_pos_game_over | apply set_pos_win].
Qed.

Lemma yard_solids_apart : solids_apart yard.
Proof.
  apply apart_of_NoDup. apply (bool_decide_unpack _). vm_compute. exact I.
Qed.

Lemma move_is_safe_witness :
  (is_solid_at yard (x (Enemy 2 1) + 0) (y (Enemy 2 1) + 1) = true →
   move 1 0 1 yard = yard)
  ∧ (is_solid_at yard (x (Enemy 2 1) + 0) (y (Enemy 2 1) + 1) = false →
     entities (move 1 0 1 yard) !! 1%nat
       = Some (mkEntity (x (Enemy 2 1) + 0) (y (Enemy 2 1) + 1)
                        (char (Enemy 2 1)) (solid (Enemy 2 1))))
  ∧ (∀ j, j ≠ 1%nat → entities (move 1 0 1 yard) !! j = entities yard !! j)
  ∧ all_in_grid (move 1 0 1 yard) ∧ solids_apart (move 1 0 1 yard)
  ∧ game_over (move 1 0 1 yard) = game_over yard
  ∧ win (move 1 0 1 yard) = win yard.
Proof.
  apply (move_is_safe 1 0 1 yard (Enemy 2 1)).
  - reflexivity.
  - exact yard_in_grid.
  - exact yard_solids_apart.
Defined.

(** ** World.draw *)

Lemma In_range (n z : Z) : In z (range n) ↔ 0 <= z < n.
Proof.
  unfold range. rewrite in_map_iff. split.
  - intros (i & <- & Hi). apply in_seq in Hi. lia.
  - intros Hz. exists (Z.to_nat z). split; [lia|]. apply in_seq. lia.
Qed.

Lemma draw_cell (w : World) (cx cy : Z) :
  in_grid w cx cy → In (AddStr cy (cx * 2) (glyph w cx cy)) (draw w).
Proof.
  intros [Hx Hy]. unfold draw. rewrite !in_app_iff, in_flat_map.
  right. left. exists cy. split; [by apply In_range|].
  apply in_map_iff. exists cx. split; [done | by apply In_range].
Qed.









(** In a session started by [main] the player is always on screen: [draw]
    writes [@] at the player's row and at twice the player's column. *)
Theorem player_is_drawn (g : Game) (px py : Z) :
  Reachable g →
  player_pos (world g) = Some (px, py) →
  In (AddStr py (px * 2) "@") (draw (world g)).
Proof.
  intros Hg Hpos.
  destruct (Reachable_sound g Hg) as ([(p & Hp & Hc & _) _] & _ & _ & Hig).
  unfold player_pos in Hpos. rewrite Hp in Hpos. injection Hpos as <- <-.
  assert (glyph (world g) (x p) (y p) = "@"%string) as <-.
  { unfold glyph, get_entity_at, player in *.
    destruct (entities (world g)) as [|q l]; [done|]. injection Hp as ->.
    simpl. unfold at_cell. by rewrite !Z.eqb_refl. }
  apply draw_cell. by apply (Hig player).
Qed.

Lemma player_is_drawn_witness :
  In (AddStr 10 (3 * 2) "@")
     (draw (world (run [key_d; key_d] (initial_game ambush_tape)))).
Proof.
  apply (player_is_drawn (run [key_d; key_d] (initial_game ambush_tape)) 3 10).
  - apply Reachable_run, reach_init.
  - reflexivity.
Defined.

(** ** What a turn activates *)

Lemma effect_refs (f : string → bool) (w v : World) :
  enemy_effect w v →
  refs_where (λ e, f (char e)) (entities v) = refs_where (λ e, f (char e)) (entities w).
Proof.
  intros E. unfold refs_where. rewrite (eff_length _ _ E).
  apply filter_ext_in. intros i _. pose proof (eff_char _ _ E i) as Hc.
  destruct (entities v !! i), (entities w !! i); simpl in Hc; congruence.
Qed.

(** An iteration that does not increment the counter activates no enemy,
    attempts no spawn, draws no random number and leaves every entity as it
    was: a rejected or terminal move ends the turn at once. *)
Theorem idle_turn_is_quiet (g g' : Game) (key : Z) (tr : list Event) :
  tick key g = Continue g' tr →
  player_moves g' = player_moves g →
  tr = [] ∧ rand g' = rand g ∧ entities (world g') = entities (world g).
Proof.
  intros Ht Hpm.
  apply tick_Continue_inv in Ht as [(_ & -> & ->) | (_ & Ht)]; [done|].
  apply turn_inv in Ht as (w1 & moved & Hs & Hm). destruct moved.
  - destruct Hm as (w2 & r2 & _ & ->). simpl in Hpm. lia.
  - destruct Hm as [-> ->]. simpl.
    by apply player_step_inv in Hs as [-> _].
Qed.

Lemma idle_turn_is_quiet_witness :
  @nil Event = []
  ∧ rand (after_tick 115 (initial_game stay_tape)) = rand (initial_game stay_tape)
  ∧ entities (world (after_tick 115 (initial_game stay_tape)))
    = entities (world (initial_game stay_tape)).
Proof.
  apply (idle_turn_is_quiet (initial_game stay_tape)
           (after_tick 115 (initial_game stay_tape)) 115 []).
  - vm_compute. reflexivity.
  - vm_compute. reflexivity.
Defined.

Lemma q_pass_off_beat (refs : list nat) (w : World) (pm : Z) (r : Rand) :
  pm mod 2 ≠ 0 → q_pass refs w pm r = (w, r).
Proof.
  intros Hpm. induction refs as [|q rest IH]; simpl; [done|].
  unfold QEnemy_take_turn.
  destruct (negb (pm mod Q_MOVE_INTERVAL =? 0)) eqn:E; [done|].
  by apply mod_interval_test in E.
Qed.

Lemma enemies_pass_fold (refs : list nat) (w : World) (r : Rand) :
  enemies_pass refs w r
  = fold_left (λ s e, Enemy_take_turn e s.1 s.2) refs (w, r).
Proof.
  revert w r. induction refs as [|e rest IH]; intros w r; simpl; [done|].
  destruct (Enemy_take_turn e w r) as [w' r']. apply IH.
Qed.

Lemma q_pass_fold (refs : list nat) (w : World) (pm : Z) (r : Rand) :
  q_pass refs w pm r
  = fold_left (λ s q, QEnemy_take_turn q s.1 pm s.2) refs (w, r).
Proof.
  revert w r. induction refs as [|q rest IH]; intros w r; simpl; [done|].
  destruct (QEnemy_take_turn q w pm r) as [w' r']. apply IH.
Qed.

(** Each activation of an entity of the world reads exactly one cell of
    the tape; a pursuer off its beat reads none. *)
Lemma Enemy_take_turn_draw (i : nat) (w : World) (r : Rand) :
  (i < length (entities w))%nat →
  (Enemy_take_turn i w r).2 = mkRand (tape r) (S (cursor r)).
Proof.
  intros Hi. apply lookup_lt_is_Some in Hi as [e He].
  unfold Enemy_take_turn. rewrite He.
  change (choice MOVES r)
    with (nth (tape r (cursor r) mod length MOVES)%nat MOVES (0, 0),
          mkRand (tape r) (S (cursor r))).
  cbv iota beta. by repeat case_match.
Qed.

Lemma QEnemy_take_turn_draw (i : nat) (w : World) (pm : Z) (r : Rand) :
  (i < length (entities w))%nat → pm mod 2 = 0 →
  (QEnemy_take_turn i w pm r).2 = mkRand (tape r) (S (cursor r)).
Proof.
  intros Hi Hpm. apply lookup_lt_is_Some in Hi as [e He].
  apply mod_interval_test in Hpm.
  unfold QEnemy_take_turn. rewrite Hpm, He.
  change (choice MOVES r)
    with (nth (tape r (cursor r) mod length MOVES)%nat MOVES (0, 0),
          mkRand (tape r) (S (cursor r))).
  cbv iota beta. by repeat case_match.
Qed.

Lemma enemies_pass_draws (refs : list nat) (w : World) (r : Rand) :
  (∀ i, In i refs → (i < length (entities w))%nat) →
  (enemies_pass refs w r).2 = mkRand (tape r) (cursor r + length refs).
Proof.
  revert w r. induction refs as [|e rest IH]; intros w r Hin; simpl.
  { by rewrite Nat.add_0_r; destruct r. }
  pose proof (Enemy_take_turn_draw e w r (Hin e (or_introl eq_refl))) as Hd.
  pose proof (Enemy_take_turn_effect e w r) as E. apply eff_length in E.
  destruct (Enemy_take_turn e w r) as [w' r']. simpl in *. subst r'.
  rewrite IH; [simpl; f_equal; lia|].
  intros i Hi. rewrite E. apply Hin. by right.
Qed.

Lemma q_pass_draws (refs : list nat) (w : World) (pm : Z) (r : Rand) :
  (∀ i, In i refs → (i < length (entities w))%nat) →
  (q_pass refs w pm r).2
  = mkRand (tape r) (cursor r + if pm mod 2 =? 0 then length refs else 0).
Proof.
  destruct (pm mod 2 =? 0) eqn:Hpm.
  - apply Z.eqb_eq in Hpm.
    revert w r. induction refs as [|q rest IH]; intros w r Hin; simpl.
    { by rewrite Nat.add_0_r; destruct r. }
    pose proof (QEnemy_take_turn_draw q w pm r (Hin q (or_introl eq_refl)) Hpm) as Hd.
    pose proof (QEnemy_take_turn_effect q w pm r) as E. apply eff_length in E.
    destruct (QEnemy_take_turn q w pm r) as [w' r']. simpl in *. subst r'.
    rewrite IH; [simpl; f_equal; lia|].
    intros i Hi. rewrite E. apply Hin. by right.
  - apply Z.eqb_neq in Hpm. intros _. rewrite q_pass_off_beat by done.
    simpl. by rewrite Nat.add_0_r; destruct r.
Qed.

Lemma randint_next (a b : Z) (r : Rand) :
  (randint a b r).2 = mkRand (tape r) (S (cursor r)).
Proof. done. Qed.

(** The two passes as folds of the activations over the snapshots of the
    world they start from, and the draws they make. *)
Lemma passes_spec (w : World) (pm : Z) (r : Rand) :
  passes w pm r
  = fold_left (λ s q, QEnemy_take_turn q s.1 pm s.2) (get_q_enemies w)
      (fold_left (λ s e, Enemy_take_turn e s.1 s.2) (get_enemies w) (w, r))
  ∧ (passes w pm r).2
    = mkRand (tape r)
        (cursor r + length (get_enemies w)
         + if pm mod 2 =? 0 then length (get_q_enemies w) else 0).
Proof.
  unfold passes.
  pose proof (enemies_pass_effect (get_enemies w) w r) as E1.
  pose proof (enemies_pass_draws (get_enemies w) w r (refs_where_lt _ _)) as D1.
  rewrite <- enemies_pass_fold.
  destruct (enemies_pass (get_enemies w) w r) as [w1 r1]. simpl in *.
  assert (get_q_enemies w1 = get_q_enemies w) as Hq
    by apply (effect_refs (λ c, (c =? "Q")%string) _ _ E1).
  split; [by rewrite q_pass_fold, Hq|].
  rewrite q_pass_draws by apply refs_where_lt.
  by rewrite Hq, D1.
Qed.

(** An iteration that increments the counter activates every roamer and
    then every pursuer that was in the world before the turn, each exactly
    once and in the order of the entity list, and after them makes at most
    one spawn attempt.  On the state: the world after the turn is the one
    obtained by folding [Enemy.take_turn] over the roamers and then
    [QEnemy.take_turn] over the pursuers of the world before the turn,
    starting from the world the player's move left, up to the entity the
    spawn may append; and the random source has advanced by one draw per
    roamer, one per pursuer when the new count is even, and two when it is
    a multiple of 10. *)
Theorem turn_schedule (g g' : Game) (key : Z) (tr : list Event) :
  tick key g = Continue g' tr →
  player_moves g' = player_moves g + 1 →
  NoDup (get_enemies (world g)) ∧ NoDup (get_q_enemies (world g))
  ∧ (∃ tail, tr = map Act_E (get_enemies (world g))
                  ++ map Act_Q (get_q_enemies (world g)) ++ tail
             ∧ (tail = [] ∨ ∃ sx sy, tail = [Spawn_try sx sy]))
  ∧ (let s0 := ((player_step (key_direction key g) (world g)).1, rand g) in
     let s1 := fold_left (λ s e, Enemy_take_turn e s.1 s.2)
                         (get_enemies (world g)) s0 in
     let s2 := fold_left (λ s q, QEnemy_take_turn q s.1 (player_moves g') s.2)
                         (get_q_enemies (world g)) s1 in
     game_over (world g') = game_over s2.1
     ∧ (entities (world g') = entities s2.1
        ∨ ∃ sx sy, entities (world g') = entities s2.1 ++ [QEnemy sx sy]))
  ∧ tape (rand g') = tape (rand g)
  ∧ cursor (rand g')
    = (cursor (rand g) + length (get_enemies (world g))
       + (if (player_moves g' mod 2 =? 0)%Z
          then length (get_q_enemies (world g)) else 0)
       + (if (player_moves g' mod 10 =? 0)%Z then 2 else 0))%nat.
Proof.
  intros Ht Hpm.
  split; [apply refs_where_NoDup|]. split; [apply refs_where_NoDup|].
  pose proof (moved_turn_state g g' key tr Ht Hpm) as Hst. cbv zeta in Hst.
  apply tick_Continue_inv in Ht as [(_ & -> & _) | (_ & Ht)];
    [simpl in Hpm; lia|].
  apply turn_inv in Ht as (w1 & moved & Hs & Hm). destruct moved;
    [|destruct Hm as [-> _]; simpl in Hpm; lia].
  destruct Hm as (w2 & r2 & Ha & Hg'). rewrite Hs in *. cbn [fst snd] in *.
  apply player_step_inv in Hs as (p & Hp & Hw1).
  pose proof (enemy_effect_set_pos player (x p + (key_direction key g).1)
                (y p + (key_direction key g).2) (world g)) as E0.
  rewrite <- Hw1 in E0.
  assert (get_enemies w1 = get_enemies (world g)) as Hge
    by apply (effect_refs (λ c, (c =? "E")%string) _ _ E0).
  assert (get_q_enemies w1 = get_q_enemies (world g)) as Hgq
    by apply (effect_refs (λ c, (c =? "Q")%string) _ _ E0).
  destruct (passes_spec w1 (player_moves g') (rand g)) as [Hfold Hdraw].
  rewrite Hge, Hgq in Hfold, Hdraw.
  split.
  { apply after_move_shape in Ha
      as (v1 & v2 & acts & E1 & _ & _ & _ & -> & Hsp).
    assert (get_q_enemies v1 = get_q_enemies (world g)) as Hgq1.
    { rewrite <- Hgq. by apply (effect_refs (λ c, (c =? "Q")%string) _ _ E1). }
    destruct Hsp as [(_ & sx & sy & -> & _) | (_ & -> & _)];
      rewrite Hge, Hgq1.
    + exists [Spawn_try sx sy]. rewrite <- app_assoc. split; [done|].
      right. by exists sx, sy.
    + exists []. rewrite app_nil_r. split; [done | by left]. }
  rewrite <- Hfold.
  set (w3 := (passes w1 (player_moves g') (rand g)).1) in *.
  set (r3 := (passes w1 (player_moves g') (rand g)).2) in *.
  destruct (player_moves g' mod 10 =? 0).
  - destruct Hst as (_ & Hr & Hw). rewrite Hw. split.
    { destruct (is_solid_at w3 _ _); [by split; [|left]|].
      split; [done|]. right. by eexists _, _. }
    rewrite Hr, !randint_next. cbn [tape cursor]. rewrite Hdraw.
    cbn [tape cursor]. split; [done | lia].
  - destruct Hst as [Hr Hw]. rewrite Hw, Hr, Hdraw.
    split; [by split; [|left]|]. cbn [tape cursor]. split; [done | lia].
Qed.

Lemma turn_schedule_witness :
  NoDup (get_enemies (world crowded)) ∧ NoDup (get_q_enemies (world crowded))
  ∧ (∃ tail, [Act_E 1; Act_Q 2; Spawn_try 5 4] = map Act_E (get_enemies (world crowded))
                  ++ map Act_Q (get_q_enemies (world crowded)) ++ tail
             ∧ (tail = [] ∨ ∃ sx sy, tail = [Spawn_try sx sy]))
  ∧ (let s0 := ((player_step (key_direction key_d crowded) (world crowded)).1, rand crowded) in
     let s1 := fold_left (λ s e, Enemy_take_turn e s.1 s.2)
                         (get_enemies (world crowded)) s0 in
     let s2 := fold_left (λ s q, QEnemy_take_turn q s.1 (player_moves (after_tick key_d crowded)) s.2)
                         (get_q_enemies (world crowded)) s1 in
     game_over (world (after_tick key_d crowded)) = game_over s2.1
     ∧ (entities (world (after_tick key_d crowded)) = entities s2.1
        ∨ ∃ sx sy, entities (world (after_tick key_d crowded)) = entities s2.1 ++ [QEnemy sx sy]))
  ∧ tape (rand (after_tick key_d crowded)) = tape (rand crowded)
  ∧ cursor (rand (after_tick key_d crowded))
    = (cursor (rand crowded) + length (get_enemies (world crowded))
       + (if (player_moves (after_tick key_d crowded) mod 2 =? 0)%Z
          then length (get_q_enemies (world crowded)) else 0)
       + (if (player_moves (after_tick key_d crowded) mod 10 =? 0)%Z then 2 else 0))%nat.
Proof.
  apply (turn_schedule crowded (after_tick key_d crowded) key_d
           [Act_E 1; Act_Q 2; Spawn_try 5 4]).
  - vm_compute. reflexivity.
  - vm_compute. reflexivity.
Defined.

(** ** Where pursuers are spawned *)




(** ** Pursuers between their beats *)

(** An iteration that ends on an odd move count leaves every pursuer
    exactly where it was. *)
Theorem pursuers_rest_on_odd_counts (g g' : Game) (key : Z) (tr : list Event)
    (i : nat) (e : Entity) :
  player_bound (world g) →
  tick key g = Continue g' tr →
  player_moves g' mod 2 ≠ 0 →
  entities (world g) !! i = Some e → char e = "Q"%string →
  entities (world g') !! i = Some e.
Proof.
  intros (p & Hp & Hc) Ht Hodd He HQ.
  apply tick_Continue_inv in Ht as [(_ & -> & _) | (_ & Ht)]; [done|].
  apply turn_inv in Ht as (w1 & moved & Hs & Hm).
  apply player_step_inv in Hs. destruct moved.
  - destruct Hs as (p' & Hp' & ->). destruct Hm as (w2 & r2 & Ha & ->).
    simpl in *.
    apply after_move_inv in Ha as (v1 & r1 & v2 & q2 & Hep & Hqp & Hsp).
    rewrite q_pass_off_beat in Hqp by done. injection Hqp as <- <-.
    assert (i ≠ player) as Hi by (intros ->; congruence).
    assert (entities v1 !! i = Some e) as He1.
    { pose proof (enemies_pass_lookup_ne (get_enemies
        (set_pos player (x p' + (key_direction key g).1)
           (y p' + (key_direction key g).2) (world g))) i
        (set_pos player (x p' + (key_direction key g).1)
           (y p' + (key_direction key g).2) (world g)) (rand g)) as Hl.
      rewrite Hep in Hl. simpl in Hl.
      rewrite Hl; [by rewrite set_pos_lookup_ne|].
      unfold get_enemies. rewrite In_refs_where. intros (e' & He' & HE).
      rewrite set_pos_lookup_ne in He' by done.
      apply String.eqb_eq in HE. congruence. }
    simpl in Hsp. destruct (_ =? 0).
    + destruct Hsp as (sx & sy & Hst & _).
      apply spawn_step_inv in Hst as [[_ ->] | [_ ->]]; [|done].
      simpl. by apply lookup_app_l_Some.
    + by destruct Hsp as (-> & _).
  - destruct Hs as (Hes & _). destruct Hm as [-> _]. simpl. by rewrite Hes.
Qed.

Lemma pursuers_rest_on_odd_counts_witness :
  entities (world (after_tick 115 (mkGame yard (0, 0) 0 (mkRand (λ _, 0%nat) 0))))
    !! 3%nat = Some (QEnemy 5 2).
Proof.
  apply (pursuers_rest_on_odd_counts
           (mkGame yard (0, 0) 0 (mkRand (λ _, 0%nat) 0))
           (after_tick 115 (mkGame yard (0, 0) 0 (mkRand (λ _, 0%nat) 0)))
           115 [Act_E 1; Act_Q 3] 3 (QEnemy 5 2)).
  - exists (mkEntity 1 1 "@" true). split; reflexivity.
  - vm_compute. reflexivity.
  - vm_compute. discriminate.
  - reflexivity.
  - reflexivity.
Defined.

(** ** Empty cells *)

(** On a cell that holds no entity, [is_solid_at] is the bounds test alone:
    after [get_entity_at] has found nothing, the second query the main loop
    makes can only reject a cell outside the grid. *)
Theorem empty_cell_solid_iff_outside (w : World) (cx cy : Z) :
  get_entity_at w cx cy = None →
  (is_solid_at w cx cy = false ↔ in_grid w cx cy).
Proof.
  intros Hn. split; [apply free_cell_in_grid|].
  intros Hin. unfold is_solid_at.
  apply in_grid_test in Hin. rewrite Hin.
  destruct (existsb _ _) eqn:Hex; [|done].
  apply existsb_exists in Hex as (e & He & Hc).
  apply andb_true_iff in Hc as [_ Hc].
  pose proof (find_none _ _ Hn e He) as Hf. simpl in Hf. congruence.
Qed.

Lemma empty_cell_solid_iff_outside_witness :
  is_solid_at yard 3 1 = false ↔ in_grid yard 3 1.
Proof.
  apply (empty_cell_solid_iff_outside yard 3 1). reflexivity.
Defined.
